(** * ga_pmsp: a genetic algorithm for parallel machine scheduling

    Shallow embedding of [ga_pmsp.py]: the greedy list-scheduling decoder
    [decode_schedule], the data dependent lower bound [calcular_ddlb], the
    permutation operators [order_crossover] and [mutate_swap], and the search
    loop [genetic_algorithm].

    Conventions of the embedding.
    - In the model of the search, times (processing, ready, setup,
      makespan, cost) are exact rationals [Q]: sums are exact, and
      [float("inf")] in the decoder's scan is the absent candidate. It is
      the program as long as no sum is rounded or overflows, and what is
      proved over it rests on the order of the costs and on the structure
      of the lists, not on the value of a sum.
    - The decoder is given a second time in Python's own arithmetic, in the
      module [Py]: [int]s of any size and IEEE 754 doubles, with rounding,
      infinities and NaN. What the specification says of the start and end
      times of a schedule, and of the machine a job goes to, is settled
      there.
    - Jobs, machines and list positions are [nat]; Python lists are [list],
      read with [!!] and written with [<[i:=x]>] behind an explicit range
      check, since Python raises [IndexError] where stdpp would do nothing.
    - A setup matrix cell is [option Q]: JSON [null] is [None].
    - A raised exception is the [Raise] result; the kinds the code can
      meet are kept apart.
    - The module [random] is an explicit source of integer draws threaded
      through every stochastic operation.
    - Lists are values: the source changes a list in place only while it
      is a fresh child ([mutate_swap], the fill of [order_crossover]), never
      once it is stored in an individual, so no store is needed. *)

From Stdlib Require Import QArith Qminmax Lia Lqa ZArith SpecFloat.
From stdpp Require Import base list.

(** ** Exceptions and the error monad *)

Inductive exn :=
  ValueError | IndexError | TypeError | ZeroDivisionError | OverflowError.

Inductive result (A : Type) := Ok (a : A) | Raise (e : exn).
Arguments Ok {A} a.
Arguments Raise {A} e.

#[global] Instance result_ret : MRet result := @Ok.
#[global] Instance result_bind : MBind result := λ A B f m,
  match m with Ok a => f a | Raise e => Raise e end.

(** [l[i]] *)
Definition getitem {A} (l : list A) (i : nat) : result A :=
  match l !! i with Some x => Ok x | None => Raise IndexError end.

(** [l[i] = x] *)
Definition setitem {A} (l : list A) (i : nat) (x : A) : result (list A) :=
  if decide (i < length l) then Ok (<[i:=x]> l) else Raise IndexError.

(** [for x in xs: st = body(st, x)], stopping at the first exception. *)
Fixpoint for_each {A S} (body : S → A → result S) (xs : list A) (st : S)
  : result S :=
  match xs with
  | [] => Ok st
  | x :: xs' => st' ← body st x; for_each body xs' st'
  end.

(** ** Comparisons on times *)

Definition Qltb (x y : Q) : bool :=
  match Qcompare x y with Lt => true | _ => false end.

(** [max(a, b)]: the first argument unless the second is strictly larger. *)
Definition pymax (a b : Q) : Q := if Qltb a b then b else a.

(** [max(xs)] over a list: [ValueError] on the empty list, first maximum. *)
Definition max_list (xs : list Q) : result Q :=
  match xs with
  | [] => Raise ValueError
  | x :: xs' => Ok (foldl pymax x xs')
  end.

(** [min(xs)] over a list or generator: [ValueError] when empty, first
    minimum. *)
Definition min_list (xs : list Q) : result Q :=
  match xs with
  | [] => Raise ValueError
  | x :: xs' => Ok (foldl (λ m y, if Qltb y m then y else m) x xs')
  end.

(** [sum(xs)] *)
Definition sum_list_Q (xs : list Q) : Q := foldl Qplus 0%Q xs.

(** ** The schedule decoder *)

(** The decoder in exact arithmetic; [Py.decode_schedule] below is the
    decoder with the sums and comparisons of Python's numbers. *)

(** One entry [(job, start, end)] of a machine's schedule. *)
Definition triple := (nat * Q * Q)%type.

Record decoder_state := DecoderState {
  machine_time : list Q;
  last_job : list (option nat);
  completion_times : list Q;
  schedule : list (list triple)
}.

Section Decoder.
Variable n_machines : nat.
Variable processing_times : list Q.
Variable ready_times : list Q.
Variable setup_matrix : list (list (option Q)).

(** The body of [for m in range(n_machines)] up to the comparison: the
    start and completion of [job] if it were put on machine [m]. *)
Definition candidate (st : decoder_state) (job m : nat) : result (Q * Q) :=
  t ← getitem (machine_time st) m;
  prev ← getitem (last_job st) m;
  t ← match prev with
      | Some p =>
          row ← getitem setup_matrix p;
          s ← getitem row job;
          let s := match s with Some s => s | None => 0%Q end in
          Ok (t + s)%Q
      | None => Ok t
      end;
  r ← getitem ready_times job;
  let start := pymax t r in
  p ← getitem processing_times job;
  Ok (start, (start + p)%Q).

(** The running best of the scan: [None] stands for the initial
    [best_machine = None], [best_completion = inf]. *)
Definition scan_best := option (nat * Q * Q).

Definition scan_step (st : decoder_state) (job : nat) (b : scan_best)
    (m : nat) : result scan_best :=
  '(start, completion) ← candidate st job m;
  match b with
  | Some (_, _, best_completion) =>
      if Qltb completion best_completion
      then Ok (Some (m, start, completion))
      else Ok b
  | None => Ok (Some (m, start, completion))
  end.

Definition scan_machines (st : decoder_state) (job : nat)
  : result scan_best :=
  for_each (scan_step st job) (seq 0 n_machines) None.

(** The four assignments that commit [job] to [best_machine]. *)
Definition commit (st : decoder_state) (job best_machine : nat)
    (best_start best_completion : Q) : result decoder_state :=
  mt ← setitem (machine_time st) best_machine best_completion;
  lj ← setitem (last_job st) best_machine (Some job);
  ct ← setitem (completion_times st) job best_completion;
  row ← getitem (schedule st) best_machine;
  sch ← setitem (schedule st) best_machine
            (row ++ [(job, best_start, best_completion)]);
  Ok (DecoderState mt lj ct sch).

(** The body of [for job in order]. *)
Definition place_job (st : decoder_state) (job : nat) : result decoder_state :=
  b ← scan_machines st job;
  match b with
  | None => Raise TypeError
  | Some (best_machine, best_start, best_completion) =>
      commit st job best_machine best_start best_completion
  end.

Definition init_state (order : list nat) : decoder_state :=
  DecoderState (replicate n_machines 0%Q) (replicate n_machines None)
               (replicate (length order) 0%Q) (replicate n_machines []).

Definition decode_loop (order : list nat) (st : decoder_state)
  : result decoder_state :=
  for_each place_job order st.

Definition decode_schedule (order : list nat)
  : result (Q * list (list triple)) :=
  st ← decode_loop order (init_state order);
  makespan ← max_list (completion_times st);
  Ok (makespan, schedule st).

Definition evaluate (order : list nat) : result Q :=
  '(makespan, _) ← decode_schedule order;
  Ok makespan.

End Decoder.

(** ** The lower bound estimator *)

(** The estimator in exact arithmetic, for a number of machines that is
    not negative. *)

(** One step of the stable insertion behind [sorted(xs, reverse=True)]:
    [x] goes after every element that is not smaller. *)
Fixpoint insert_desc (x : Q) (l : list Q) : list Q :=
  match l with
  | [] => [x]
  | y :: l' => if Qltb y x then x :: l else y :: insert_desc x l'
  end.

(** [sorted(xs, reverse=True)] *)
Definition sorted_desc (xs : list Q) : list Q :=
  foldl (λ acc x, insert_desc x acc) [] xs.

Section LowerBound.
Variable n_jobs : nat.
Variable n_machines : nat.
Variable processing_times : list Q.
Variable setup_matrix : list (list (option Q)).
Variable ready_times : list Q.

(** One [j] of the generator
    [setup_matrix[i][j] for j in range(n_jobs)
     if j != i and setup_matrix[i][j] is not None]. *)
Definition outgoing_step (i : nat) (acc : list Q) (j : nat)
  : result (list Q) :=
  if decide (j = i) then Ok acc
  else
    row ← getitem setup_matrix i;
    s ← getitem row j;
    match s with
    | Some s => Ok (acc ++ [s])
    | None => Ok acc
    end.

(** The body of the first [for i in range(n_jobs)]. *)
Definition delta_step (deltas : list Q) (i : nat) : result (list Q) :=
  outgoing ← for_each (outgoing_step i) (seq 0 n_jobs) [];
  min_setup_i ← min_list outgoing;
  Ok (deltas ++ [min_setup_i]).

(** The body of the second [for i in range(n_jobs)]. *)
Definition critical_step (deltas : list Q) (limite : Q) (i : nat)
  : result Q :=
  r ← getitem ready_times i;
  p ← getitem processing_times i;
  d ← getitem deltas i;
  let caminho_i := (r + p + d)%Q in
  if Qltb limite caminho_i then Ok caminho_i else Ok limite.

Definition calcular_ddlb : result Q :=
  deltas ← for_each delta_step (seq 0 n_jobs) [];
  let soma_p := sum_list_Q processing_times in
  let soma_deltas := sum_list_Q deltas in
  let deltas_ordenados := sorted_desc deltas in
  let soma_maiores := sum_list_Q (take n_machines deltas_ordenados) in
  let setup_total_minimo := (soma_deltas - soma_maiores)%Q in
  limite_carga_trabalho ←
    (if decide (n_machines = 0) then Raise ZeroDivisionError
     else Ok ((soma_p + setup_total_minimo)
              / inject_Z (Z.of_nat n_machines))%Q);
  limite_caminho_critico ←
    for_each (critical_step deltas) (seq 0 n_jobs) 0%Q;
  Ok (pymax limite_carga_trabalho limite_caminho_critico).

End LowerBound.

(** ** The random source *)

(** The functions of Python's [random] module that the code calls, each
    with its documented behaviour, over an explicit source of draws: a
    call consumes one draw per integer or float it needs. *)

(** The draws still to come; an exhausted source keeps answering 0. *)
Definition rng := list Z.

(** A computation that consumes draws and may raise. *)
Definition Rand (A : Type) : Type := rng → result (A * rng).

#[global] Instance Rand_ret : MRet Rand := λ A a g, Ok (a, g).
#[global] Instance Rand_bind : MBind Rand := λ A B f m g,
  match m g with Ok (a, g') => f a g' | Raise e => Raise e end.

Definition next_draw : Rand Z := λ g,
  match g with
  | [] => Ok (0%Z, [])
  | d :: g' => Ok (d, g')
  end.

Definition lift {A} (r : result A) : Rand A := λ g,
  match r with Ok a => Ok (a, g) | Raise e => Raise e end.

Fixpoint for_each_rand {A S} (body : S → A → Rand S) (xs : list A) (st : S)
  : Rand S :=
  match xs with
  | [] => mret st
  | x :: xs' => st' ← body st x; for_each_rand body xs' st'
  end.

(** [[m for _ in range(n)]] *)
Fixpoint repeat_rand {A} (m : Rand A) (n : nat) : Rand (list A) :=
  match n with
  | 0 => mret []
  | S n' => x ← m; xs ← repeat_rand m n'; mret (x :: xs)
  end.

(** [random.random()]: a multiple of 2^-53 in [0, 1). *)
Definition random_random : Rand Q :=
  d ← next_draw;
  mret (Qmake (d mod 2 ^ 53) (2 ^ 53)).

(** A uniform integer in [range(n)], for [n > 0]. *)
Definition randbelow (n : nat) : Rand nat :=
  d ← next_draw;
  mret (Z.to_nat (d mod Z.of_nat n)).

(** [random.randrange(n)] *)
Definition random_randrange (n : nat) : Rand nat :=
  if decide (n = 0) then lift (Raise ValueError) else randbelow n.

(** [l[i], l[j] = l[j], l[i]] *)
Definition swap {A} (l : list A) (i j : nat) : result (list A) :=
  y ← getitem l j;
  x ← getitem l i;
  l ← setitem l i y;
  setitem l j x.

(** [random.shuffle(x)]: for [i] from [len(x) - 1] down to 1, exchange
    [x[i]] with [x[randbelow(i + 1)]]. *)
Definition shuffle_step {A} (x : list A) (i : nat) : Rand (list A) :=
  j ← randbelow (i + 1);
  lift (swap x i j).

Definition random_shuffle {A} (x : list A) : Rand (list A) :=
  for_each_rand shuffle_step (reverse (seq 1 (length x - 1))) x.

(** [random.sample(population, k)]: [k] elements at distinct positions,
    drawn one after the other from what is left of the population and kept
    in the order drawn; [ValueError] when [k] is negative or exceeds the
    population. *)
Fixpoint sample_loop {A} (pool : list A) (k : nat) : Rand (list A) :=
  match k with
  | 0 => mret []
  | S k' =>
      j ← randbelow (length pool);
      x ← lift (getitem pool j);
      rest ← sample_loop (delete j pool) k';
      mret (x :: rest)
  end.

Definition random_sample {A} (population : list A) (k : Z) : Rand (list A) :=
  if decide (0 ≤ k ≤ Z.of_nat (length population))%Z
  then sample_loop population (Z.to_nat k)
  else lift (Raise ValueError).

(** ** Individuals and the genetic operators *)

(** The dict [{"chromosome": ..., "cost": ...}]. *)
Record individual := Individual {
  chromosome : list nat;
  cost : Q
}.

(** [min(xs, key=lambda ind: ind["cost"])]: [ValueError] on the empty
    list, first minimum. *)
Definition min_by_cost (xs : list individual) : result individual :=
  match xs with
  | [] => Raise ValueError
  | x :: xs' =>
      Ok (foldl (λ m y, if Qltb (cost y) (cost m) then y else m) x xs')
  end.

Definition tournament_selection (population : list individual) (k : Z)
  : Rand individual :=
  candidates ← random_sample population k;
  lift (min_by_cost candidates).

(** [l[a:b]] for [a <= b] *)
Definition slice {A} (l : list A) (a b : nat) : list A :=
  take (b - a) (drop a l).

(** The body of [for gene in parent2[b:] + parent2[:b]]; the state is
    [(child, pos)]. *)
Definition fill_step (size : nat) (st : list (option nat) * nat) (gene : nat)
  : result (list (option nat) * nat) :=
  let '(child, pos) := st in
  if decide (Some gene ∈ child) then Ok st
  else
    let pos := if decide (size ≤ pos) then 0 else pos in
    child ← setitem child pos (Some gene);
    Ok (child, pos + 1).

(** The child is returned with its slots as they are: a slot the fill
    never reached is still [None]. *)
Definition order_crossover (parent1 parent2 : list nat)
  : Rand (list (option nat)) :=
  let size := length parent1 in
  cuts ← random_sample (seq 0 size) 2;
  match cuts with
  | [c1; c2] =>
      let a := c1 `min` c2 in
      let b := c1 `max` c2 in
      let child := replicate size None in
      let child :=
        take a child ++ (Some <$> slice parent1 a b) ++ drop b child in
      '(child, _) ← lift (for_each (fill_step size)
                            (drop b parent2 ++ take b parent2) (child, b));
      mret child
  | _ => lift (Raise ValueError)
  end.

(** The body of [for i in range(size)] in [mutate_swap]. *)
Definition mutate_step {A} (size : nat) (mutation_rate : Q)
    (chromosome : list A) (i : nat) : Rand (list A) :=
  u ← random_random;
  if Qltb u mutation_rate then
    j ← random_randrange size;
    lift (swap chromosome i j)
  else mret chromosome.

(** The list is changed in place in the source; the embedding returns it. *)
Definition mutate_swap {A} (chromosome : list A) (mutation_rate : Q)
  : Rand (list A) :=
  let size := length chromosome in
  for_each_rand (mutate_step size mutation_rate) (seq 0 size) chromosome.

(** The jobs of a child. The decoder takes jobs only: on a gene that is
    still [None] its [ready_times[job]] raises [TypeError]. *)
Fixpoint genes (child : list (option nat)) : result (list nat) :=
  match child with
  | [] => Ok []
  | Some g :: child' => gs ← genes child'; Ok (g :: gs)
  | None :: _ => Raise TypeError
  end.

(** ** The genetic algorithm *)

Record ga_result := GaResult {
  best : individual;
  history : list Q
}.

Record ga_state := GaState {
  population : list individual;
  running_best : individual;
  best_history : list Q
}.

Section GeneticAlgorithm.
Variable n_jobs : nat.
Variable n_machines : nat.
Variable processing_times : list Q.
Variable ready_times : list Q.
Variable setup_matrix : list (list (option Q)).
Variable pop_size : Z.
Variable generations : Z.
Variable crossover_rate : Q.
Variable mutation_rate : Q.
Variable tournament_k : Z.

Definition evaluate_order (order : list nat) : result Q :=
  evaluate n_machines processing_times ready_times setup_matrix order.

(** [cost = evaluate(child, ...)] and the dict
    [{"chromosome": child, "cost": cost}] built from it. *)
Definition evaluate_child (child : list (option nat)) : result individual :=
  order ← genes child;
  cost ← evaluate_order order;
  Ok (Individual order cost).

Definition create_individual : Rand individual :=
  chromosome ← random_shuffle (seq 0 n_jobs);
  cost ← lift (evaluate_order chromosome);
  mret (Individual chromosome cost).

(** Selection, crossover and mutation of one pass of the [while] loop:
    the two children before their evaluation. *)
Definition breed_pair (population : list individual)
  : Rand (list (option nat) * list (option nat)) :=
  winner1 ← tournament_selection population tournament_k;
  let parent1 := chromosome winner1 in
  winner2 ← tournament_selection population tournament_k;
  let parent2 := chromosome winner2 in
  u ← random_random;
  '(child1, child2) ←
    (if Qltb u crossover_rate then
       child1 ← order_crossover parent1 parent2;
       child2 ← order_crossover parent2 parent1;
       mret (child1, child2)
     else mret (Some <$> parent1, Some <$> parent2));
  child1 ← mutate_swap child1 mutation_rate;
  child2 ← mutate_swap child2 mutation_rate;
  mret (child1, child2).

(** [while len(new_population) < pop_size], with [need] the number of
    individuals still missing: a pass appends the first child, and the
    second one if there is still room. *)
Fixpoint breed (population new_population : list individual) (need : nat)
  : Rand (list individual) :=
  match need with
  | 0 => mret new_population
  | S need' =>
      '(child1, child2) ← breed_pair population;
      individual1 ← lift (evaluate_child child1);
      let new_population := new_population ++ [individual1] in
      match need' with
      | 0 => mret new_population
      | S need'' =>
          individual2 ← lift (evaluate_child child2);
          let new_population := new_population ++ [individual2] in
          breed population new_population need''
      end
  end.

(** The body of [for gen in range(generations)]. *)
Definition generation (st : ga_state) : Rand ga_state :=
  let population := population st in
  let best := running_best st in
  elite ← lift (min_by_cost population);
  let best := if Qltb (cost elite) (cost best) then elite else best in
  let new_population := [Individual (chromosome elite) (cost elite)] in
  new_population ←
    breed population new_population
          (Z.to_nat pop_size - length new_population);
  best_gen ← lift (min_by_cost new_population);
  mret (GaState new_population best (best_history st ++ [cost best_gen])).

Fixpoint generations_loop (gens : nat) (st : ga_state) : Rand ga_state :=
  match gens with
  | 0 => mret st
  | S gens' => st' ← generation st; generations_loop gens' st'
  end.

Definition genetic_algorithm : Rand ga_result :=
  population ← repeat_rand create_individual (Z.to_nat pop_size);
  best ← lift (min_by_cost population);
  st ← generations_loop (Z.to_nat generations)
         (GaState population best [cost best]);
  mret (GaResult (running_best st) (best_history st)).

End GeneticAlgorithm.

(** ** Instances and schedules: the predicates of the specification *)

(** The sizes the code relies on: one processing and one ready time per
    job, a square setup matrix, at least one machine. *)
Record well_sized (n_jobs n_machines : nat)
    (processing_times ready_times : list Q)
    (setup_matrix : list (list (option Q))) : Prop := WellSized {
  ws_machines : 1 ≤ n_machines;
  ws_processing : length processing_times = n_jobs;
  ws_ready : length ready_times = n_jobs;
  ws_rows : length setup_matrix = n_jobs;
  ws_cols : Forall (λ row, length row = n_jobs) setup_matrix
}.

(** A well-formed instance: well sized, and no negative time. *)
Record well_formed (n_jobs n_machines : nat)
    (processing_times ready_times : list Q)
    (setup_matrix : list (list (option Q))) : Prop := WellFormed {
  wf_sized : well_sized n_jobs n_machines processing_times ready_times
               setup_matrix;
  wf_processing : Forall (λ p, 0 <= p)%Q processing_times;
  wf_ready : Forall (λ r, 0 <= r)%Q ready_times;
  wf_setup :
    Forall (Forall (λ c, match c with Some s => (0 <= s)%Q | None => True end))
           setup_matrix
}.

(** An ordering: each of [0 .. n_jobs - 1] exactly once. *)
Definition is_ordering (n_jobs : nat) (order : list nat) : Prop :=
  order ≡ₚ seq 0 n_jobs.

(** The setup paid when [q] directly follows [p], an undefined entry
    counting as 0. *)
Definition setup_time (setup_matrix : list (list (option Q))) (p q : nat)
  : option Q :=
  row ← setup_matrix !! p;
  c ← row !! q;
  Some (match c with Some s => s | None => 0%Q end).

Section MachineSelection.
Variable processing_times : list Q.
Variable ready_times : list Q.
Variable setup_matrix : list (list (option Q)).

(** The running best after machines [0 .. k - 1]: a machine among them
    whose candidate completion no other one beats, and that every
    earlier machine misses strictly. *)
Definition best_of (st : decoder_state) (job k : nat) (b : scan_best)
  : Prop :=
  let candidate := candidate processing_times ready_times setup_matrix in
  match b with
  | None => k = 0
  | Some (bm, bs, bc) =>
      bm < k ∧ candidate st job bm = Ok (bs, bc) ∧
      ∀ m, m < k →
        ∃ s c, candidate st job m = Ok (s, c) ∧ (bc <= c)%Q ∧
               (m < bm → (bc < c)%Q)
  end.
End MachineSelection.

(** ** Invariants of the decoder's loop *)

Section DecoderInvariants.
Variable n_jobs : nat.
Variable n_machines : nat.
Variable processing_times : list Q.
Variable ready_times : list Q.
Variable setup_matrix : list (list (option Q)).

(** The arrays keep their sizes, and the last jobs are jobs. *)
Definition sized (len : nat) (st : decoder_state) : Prop :=
  length (machine_time st) = n_machines ∧
  length (last_job st) = n_machines ∧
  length (schedule st) = n_machines ∧
  length (completion_times st) = len ∧
  Forall (λ prev, match prev with Some p => p < n_jobs | None => True end)
         (last_job st).
End DecoderInvariants.

(** ** Invariant of the crossover's fill loop *)

(** The child of size [n] during the fill: a run of placed genes, the
    free slots before the copied slice, the slice followed by the genes
    placed after it, and the free slots up to the end. Before the wrap
    nothing is placed in front and [pos] is the first free slot of the
    tail; after it the tail is full and [pos] is the first free slot of
    the front. *)
Definition fill_inv (n : nat) (child : list (option nat)) (pos : nat) : Prop :=
  ∃ (front : list nat) (free_front : nat) (back : list nat) (free_back : nat),
    child = (Some <$> front) ++ replicate free_front None ++
            (Some <$> back) ++ replicate free_back None ∧
    length child = n ∧
    NoDup (front ++ back) ∧
    (∀ g, g ∈ front ++ back → g < n) ∧
    ((front = [] ∧ pos + free_back = n) ∨
     (free_back = 0 ∧ pos = length front)).

(** ** History and populations *)

(** [History[g + 1] <= History[g]] for every generation [g]. *)
Definition non_increasing (h : list Q) : Prop :=
  ∀ g x y, h !! g = Some x → h !! S g = Some y → (y <= x)%Q.

(** The last entry of the history is the least cost of the population. *)
Definition history_inv (st : ga_state) : Prop :=
  ∃ elite, min_by_cost (population st) = Ok elite ∧
           last (best_history st) = Some (cost elite).

(** The running best costs no less than the last entry of the history. *)
Definition best_inv (st : ga_state) : Prop :=
  history_inv st ∧
  ∃ c, last (best_history st) = Some c ∧ (c <= cost (running_best st))%Q.

(** ** Concrete instances *)

(** Two unit jobs, ready at 0, with a setup of 5 between them. *)
Definition unit_processing : list Q := [1%Q; 1%Q].
Definition unit_ready : list Q := [0%Q; 0%Q].
Definition even_setup : list (list (option Q)) :=
  [[None; Some 5%Q]; [Some 5%Q; None]].

(** The same jobs with a setup of 100 from job 0 to job 1 and of 1 from
    job 1 to job 0: on one machine the ordering [[0; 1]] costs 102 and
    [[1; 0]] costs 3. *)
Definition uneven_setup : list (list (option Q)) :=
  [[None; Some 100%Q]; [Some 1%Q; None]].

(** Draws for a population of two and one generation on that instance:
    both shuffles keep [[0; 1]], both tournaments pick individual 0, the
    crossover is not taken, and the mutation of the first child exchanges
    its two genes. *)
Definition improving_draws : rng :=
  [1; 1; 0; 0; 2 ^ 53 - 1; 0; 1; 2 ^ 52; 2 ^ 52; 2 ^ 52]%Z.

(** The tournaments and the draw of [random.random()] that open a pass of
    the breeding loop send it into the crossover branch. *)
Definition crossover_taken (crossover_rate : Q) (tournament_k : Z)
    (population : list individual) (g : rng) : Prop :=
  ∃ winner1 g1 winner2 g2 u g3,
    tournament_selection population tournament_k g = Ok (winner1, g1) ∧
    tournament_selection population tournament_k g1 = Ok (winner2, g2) ∧
    random_random g2 = Ok (u, g3) ∧
    (u < crossover_rate)%Q.

(** ** Reading a schedule *)

Definition entry_job (t : triple) : nat := t.1.1.
Definition entry_end (t : triple) : Q := t.2.

(** The jobs of a schedule, machine after machine. *)
Definition scheduled_jobs (sched : list (list triple)) : list nat :=
  entry_job <$> mjoin sched.

(** A job the decoder can index with: below the number of jobs of the
    instance and below the length of the ordering. *)
Definition in_range (n_jobs : nat) (order : list nat) (job : nat) : Prop :=
  job < n_jobs ∧ job < length order.

(** After the jobs [seen]: the schedule holds them, the completion times
    keep their length, and, when no job was seen twice, the completion
    time of every scheduled job is the end of its entry. *)
Definition placed_inv (n_machines len : nat) (seen : list nat)
    (st : decoder_state) : Prop :=
  scheduled_jobs (schedule st) ≡ₚ seen ∧
  length (schedule st) = n_machines ∧
  length (completion_times st) = len ∧
  (∀ job, job ∈ seen → job < len) ∧
  (NoDup seen →
   ∀ t, t ∈ mjoin (schedule st) →
     completion_times st !! entry_job t = Some (entry_end t)).

(** ** The scenario runner *)

(** What [run_scenario_from_file] computes between the loading of the
    instance and the printing of the results; the clock is left out. *)
Record scenario_report := ScenarioReport {
  machine_lines : list (list nat * Q);
  ms_final : Q;
  best_makespan : Q;
  ddlb : Q;
  razao_ms_ddlb : option Q;
  melhoria_ms : Q;
  q_iteracoes : Z
}.

(** [seq] and [tempo_m] of one machine of the best schedule. *)
Definition machine_line (jobs_on_machine : list triple) : list nat * Q :=
  (entry_job <$> jobs_on_machine,
   match last jobs_on_machine with
   | Some t => entry_end t
   | None => 0%Q
   end).

(** [razao_ms_ddlb], with [None] for [float("inf")]. *)
Definition ratio (ms_final ddlb : Q) : option Q :=
  if Qltb 0 ddlb then Some (ms_final / ddlb)%Q else None.

Definition run_scenario (n_jobs n_machines : nat)
    (processing_times ready_times : list Q)
    (setup_matrix : list (list (option Q))) : Rand scenario_report :=
  result ← genetic_algorithm n_jobs n_machines processing_times ready_times
             setup_matrix 50 200 (9 # 10) (2 # 100) 3;
  let best_individual := best result in
  let history := history result in
  let ms_final := cost best_individual in
  ms_inicial ← lift (getitem history 0);
  let melhoria_ms := (ms_inicial - ms_final)%Q in
  let q_iteracoes := (Z.of_nat (length history) - 1)%Z in
  '(best_makespan, best_schedule) ←
    lift (decode_schedule n_machines processing_times ready_times
            setup_matrix (chromosome best_individual));
  ddlb ← lift (calcular_ddlb n_jobs n_machines processing_times setup_matrix
                 ready_times);
  let razao_ms_ddlb := ratio ms_final ddlb in
  mret (ScenarioReport (machine_line <$> best_schedule) ms_final
          best_makespan ddlb razao_ms_ddlb melhoria_ms q_iteracoes).

(** ** Individuals that carry their own cost *)

(** The chromosome is an ordering of the jobs and the cost is what the
    decoder returns for it. *)
Definition sound_individual (n_jobs n_machines : nat)
    (processing_times ready_times : list Q)
    (setup_matrix : list (list (option Q))) (ind : individual) : Prop :=
  is_ordering n_jobs (chromosome ind) ∧
  evaluate n_machines processing_times ready_times setup_matrix
    (chromosome ind) = Ok (cost ind).

(** ** Outgoing setups *)

(** [x] is a defined setup from job [i] to another job. *)
Definition outgoing_setup (n_jobs : nat)
    (setup_matrix : list (list (option Q))) (i : nat) (x : Q) : Prop :=
  ∃ row j, setup_matrix !! i = Some row ∧ j < n_jobs ∧ j ≠ i ∧
           row !! j = Some (Some x).

(** [δ] is the least defined setup from job [i] to another job. *)
Definition least_outgoing_setup (n_jobs : nat)
    (setup_matrix : list (list (option Q))) (i : nat) (δ : Q) : Prop :=
  outgoing_setup n_jobs setup_matrix i δ ∧
  ∀ x, outgoing_setup n_jobs setup_matrix i x → (δ <= x)%Q.

(** Three jobs with ready times and setups that differ, for two machines:
    the ordering [[2; 0; 1]] is decoded into a schedule of makespan 11. *)
Definition three_processing : list Q := [4%Q; 7%Q; 2%Q].
Definition three_ready : list Q := [0%Q; 1%Q; 0%Q].
Definition three_setup : list (list (option Q)) :=
  [[None; Some 1%Q; Some 2%Q];
   [Some 3%Q; None; Some 1%Q];
   [Some 2%Q; Some 2%Q; None]].
Definition three_schedule : list (list triple) :=
  [[(2, 0%Q, 2%Q); (1, 4%Q, 11%Q)]; [(0, 0%Q, 4%Q)]].

(** ** The decoder in Python's arithmetic *)

Module Py.

(** A time as Python holds it: an [int] of any size, as JSON integers are
    read, or a [float], an IEEE 754 double (precision 53, exponents up to
    1024) without payload in its NaN. The doubles are the values of
    [spec_float] that [valid_binary 53 1024] accepts; nothing below needs
    that restriction. *)
Inductive number := Int (z : Z) | Float (f : spec_float).

(** [float(z)]: the nearest double, ties to even, infinite beyond the
    range. *)
Definition float_of_Z (z : Z) : spec_float :=
  binary_normalize 53 1024 z 0 false.

(** The conversion of the operand of a mixed operation: an [int] too
    large for a double raises [OverflowError]. *)
Definition to_float (x : number) : result spec_float :=
  match x with
  | Float f => Ok f
  | Int z =>
      match float_of_Z z with
      | S754_infinity _ => Raise OverflowError
      | f => Ok f
      end
  end.

(** [a + b]: exact on two [int]s, otherwise the sum of two doubles
    rounded to the nearest double. *)
Definition add (a b : number) : result number :=
  match a, b with
  | Int x, Int y => Ok (Int (x + y))
  | _, _ =>
      x ← to_float a;
      y ← to_float b;
      Ok (Float (SFadd 53 1024 x y))
  end.

(** [0.0] and [float("inf")] *)
Definition zero : number := Float (S754_zero false).
Definition inf : number := Float (S754_infinity false).

(** The exact value of a number that is not NaN. *)
Inductive extended := NegInf | Finite (q : Q) | PosInf.

Definition float_value (f : spec_float) : option extended :=
  match f with
  | S754_zero _ => Some (Finite 0)
  | S754_infinity s => Some (if s then NegInf else PosInf)
  | S754_nan => None
  | S754_finite s m e =>
      Some (Finite (inject_Z (if s then Z.neg m else Z.pos m) * 2 ^ e))
  end.

Definition value (x : number) : option extended :=
  match x with
  | Int z => Some (Finite (inject_Z z))
  | Float f => float_value f
  end.

Definition ext_ltb (x y : extended) : bool :=
  match x, y with
  | NegInf, NegInf => false
  | NegInf, _ => true
  | Finite _, NegInf => false
  | Finite p, Finite q => Qltb p q
  | Finite _, PosInf => true
  | PosInf, _ => false
  end.

(** [a < b] and [a <= b]: the exact values are compared, also between an
    [int] and a [float]; every comparison with NaN is false. *)
Definition lt (a b : number) : bool :=
  match value a, value b with
  | Some x, Some y => ext_ltb x y
  | _, _ => false
  end.

Definition le (a b : number) : bool :=
  match value a, value b with
  | Some x, Some y => negb (ext_ltb y x)
  | _, _ => false
  end.

(** [max(a, b)]: the first argument unless the second is strictly larger. *)
Definition pymax (a b : number) : number := if lt a b then b else a.

(** [max(xs)] over a list: [ValueError] on the empty list, first maximum. *)
Definition max_list (xs : list number) : result number :=
  match xs with
  | [] => Raise ValueError
  | x :: xs' => Ok (foldl pymax x xs')
  end.

(** One entry [(job, start, end)] of a machine's schedule. *)
Definition triple := (nat * number * number)%type.

Record decoder_state := DecoderState {
  machine_time : list number;
  last_job : list (option nat);
  completion_times : list number;
  schedule : list (list triple)
}.

Section Decoder.
Variable n_machines : nat.
Variable processing_times : list number.
Variable ready_times : list number.
Variable setup_matrix : list (list (option number)).

(** The body of [for m in range(n_machines)] up to the comparison. *)
Definition candidate (st : decoder_state) (job m : nat)
  : result (number * number) :=
  t ← getitem (machine_time st) m;
  prev ← getitem (last_job st) m;
  t ← match prev with
      | Some p =>
          row ← getitem setup_matrix p;
          s ← getitem row job;
          let s := match s with Some s => s | None => zero end in
          add t s
      | None => Ok t
      end;
  r ← getitem ready_times job;
  let start := pymax t r in
  p ← getitem processing_times job;
  completion ← add start p;
  Ok (start, completion).

(** [(best_machine, best_start, best_completion)] *)
Definition scan_best := (option nat * number * number)%type.

Definition scan_step (st : decoder_state) (job : nat) (b : scan_best)
    (m : nat) : result scan_best :=
  '(start, completion) ← candidate st job m;
  let '(_, _, best_completion) := b in
  if lt completion best_completion
  then Ok (Some m, start, completion)
  else Ok b.

Definition scan_machines (st : decoder_state) (job : nat)
  : result scan_best :=
  for_each (scan_step st job) (seq 0 n_machines) (None, zero, inf).

(** The four assignments that commit [job]; [machine_time[None]] raises
    [TypeError] when no candidate was below the running best. *)
Definition commit (st : decoder_state) (job : nat) (b : scan_best)
  : result decoder_state :=
  let '(best_machine, best_start, best_completion) := b in
  match best_machine with
  | None => Raise TypeError
  | Some best_machine =>
      mt ← setitem (machine_time st) best_machine best_completion;
      lj ← setitem (last_job st) best_machine (Some job);
      ct ← setitem (completion_times st) job best_completion;
      row ← getitem (schedule st) best_machine;
      sch ← setitem (schedule st) best_machine
                (row ++ [(job, best_start, best_completion)]);
      Ok (DecoderState mt lj ct sch)
  end.

(** The body of [for job in order]. *)
Definition place_job (st : decoder_state) (job : nat) : result decoder_state :=
  b ← scan_machines st job;
  commit st job b.

Definition init_state (order : list nat) : decoder_state :=
  DecoderState (replicate n_machines zero) (replicate n_machines None)
               (replicate (length order) zero) (replicate n_machines []).

Definition decode_loop (order : list nat) (st : decoder_state)
  : result decoder_state :=
  for_each place_job order st.

Definition decode_schedule (order : list nat)
  : result (number * list (list triple)) :=
  st ← decode_loop order (init_state order);
  makespan ← max_list (completion_times st);
  Ok (makespan, schedule st).

End Decoder.

(** *** What the specification says of a schedule, in this arithmetic *)

(** No negative time: [0.0 <= x], which no NaN passes. *)
Definition nonneg (x : number) : Prop := le zero x = true.

Record well_formed (n_jobs n_machines : nat)
    (processing_times ready_times : list number)
    (setup_matrix : list (list (option number))) : Prop := WellFormed {
  wf_machines : 1 ≤ n_machines;
  wf_processing_length : length processing_times = n_jobs;
  wf_ready_length : length ready_times = n_jobs;
  wf_rows : length setup_matrix = n_jobs;
  wf_cols : Forall (λ row, length row = n_jobs) setup_matrix;
  wf_processing : Forall nonneg processing_times;
  wf_ready : Forall nonneg ready_times;
  wf_setup :
    Forall (Forall (λ c, match c with Some s => nonneg s | None => True end))
           setup_matrix
}.

(** The setup paid when [q] directly follows [p], an undefined entry
    counting as [0.0]. *)
Definition setup_time (setup_matrix : list (list (option number)))
    (p q : nat) : option number :=
  row ← setup_matrix !! p;
  c ← row !! q;
  Some (match c with Some s => s | None => zero end).

Section Predicates.
Variable processing_times : list number.
Variable ready_times : list number.
Variable setup_matrix : list (list (option number)).

(** [start >= ready_time[job]] and [end = start + processing_time[job]],
    the sum being Python's. *)
Definition valid_entry (t : triple) : Prop :=
  let '(job, start, finish) := t in
  ∃ r p, ready_times !! job = Some r ∧ processing_times !! job = Some p ∧
         le r start = true ∧ add start p = Ok finish.

(** [start[job_q] >= end[job_p] + setup_time[job_p][job_q]], the sum
    being Python's. *)
Definition valid_pair (tp tq : triple) : Prop :=
  let '(job_p, _, end_p) := tp in
  let '(job_q, start_q, _) := tq in
  ∃ s t, setup_time setup_matrix job_p job_q = Some s ∧
         add end_p s = Ok t ∧ le t start_q = true.

Definition valid_machine (row : list triple) : Prop :=
  (∀ i t, row !! i = Some t → valid_entry t) ∧
  (∀ i tp tq, row !! i = Some tp → row !! S i = Some tq → valid_pair tp tq).

Definition valid_schedule (sched : list (list triple)) : Prop :=
  Forall valid_machine sched.

(** Every machine's schedule is valid so far, and a machine that has run
    a job is free at that job's end and remembers it as its last job. *)
Definition schedule_inv (st : decoder_state) : Prop :=
  ∀ m row, schedule st !! m = Some row →
    valid_machine row ∧
    match last row with
    | None => True
    | Some (job_p, _, end_p) =>
        machine_time st !! m = Some end_p ∧
        last_job st !! m = Some (Some job_p)
    end.

(** The candidate finish time of [job] on machine [m]:
    [max(free_time + setup, ready_time) + processing_time], the setup
    being added when the machine has run a job, and the sums being
    Python's. *)
Definition finish_time (st : decoder_state) (job m : nat)
    (start completion : number) : Prop :=
  ∃ free prev t r p,
    machine_time st !! m = Some free ∧ last_job st !! m = Some prev ∧
    match prev with
    | None => t = free
    | Some job_p =>
        ∃ s, setup_time setup_matrix job_p job = Some s ∧ add free s = Ok t
    end ∧
    ready_times !! job = Some r ∧ processing_times !! job = Some p ∧
    start = pymax t r ∧ add start p = Ok completion.

(** The running best after machines [0 .. k - 1]: no candidate among
    them is smaller, and every machine before the best one is not even
    as small. Without best machine the running best is still
    [float("inf")]. *)
Definition best_of (st : decoder_state) (job k : nat) (b : scan_best)
  : Prop :=
  let '(best_machine, best_start, best_completion) := b in
  match best_machine with
  | None => best_completion = inf
  | Some bm =>
      bm < k ∧ finish_time st job bm best_start best_completion ∧
      lt best_completion inf = true
  end ∧
  ∀ m, m < k →
    ∃ start completion,
      finish_time st job m start completion ∧
      lt completion best_completion = false ∧
      match best_machine with
      | Some bm => m < bm → le completion best_completion = false
      | None => True
      end.

(** The specification's formulas read in exact arithmetic: the end of an entry
    is its start plus the processing time of its job, ... *)
Definition exact_entry (t : triple) : Prop :=
  let '(job, start, finish) := t in
  ∃ p vs vp vf,
    processing_times !! job = Some p ∧
    value start = Some (Finite vs) ∧ value p = Some (Finite vp) ∧
    value finish = Some (Finite vf) ∧ (vf == vs + vp)%Q.

(** ... and the candidate finish time of [job] on machine [m] is
    [max(free_time + setup, ready_time) + processing_time]. *)
Definition exact_finish (st : decoder_state) (job m : nat) : option Q :=
  free ← machine_time st !! m;
  prev ← last_job st !! m;
  s ← match prev with
      | None => Some zero
      | Some job_p => setup_time setup_matrix job_p job
      end;
  r ← ready_times !! job;
  p ← processing_times !! job;
  match value free, value s, value r, value p with
  | Some (Finite vf), Some (Finite vs), Some (Finite vr), Some (Finite vp) =>
      Some (Qmax (vf + vs) vr + vp)%Q
  | _, _, _, _ => None
  end.
End Predicates.


(** *** Instances for this arithmetic *)

(** Two jobs whose setups and ready times are 0, as JSON integers. *)
Definition no_wait_ready : list number := [Int 0; Int 0].
Definition no_wait_setup : list (list (option number)) :=
  [[None; Some (Int 0)]; [Some (Int 0); None]].

(** The double 2^53, whose successor among the doubles is 2^53 + 2. *)
Definition two_53 : number := Float (float_of_Z (2 ^ 53)).

(** [1.0] *)
Definition one : number := Float (float_of_Z 1).

End Py.

(** * Properties *)

(** ** The error monad *)

Lemma bind_Ok {A B} (m : result A) (f : A → result B) (b : B) :
  m ≫= f = Ok b ↔ ∃ a, m = Ok a ∧ f a = Ok b.
Proof.
  destruct m as [a|e]; simpl; split.
  - eauto.
  - by intros (a' & [= ->] & ?).
  - done.
  - by intros (a' & ? & ?).
Qed.

Lemma getitem_Ok {A} (l : list A) i x : getitem l i = Ok x ↔ l !! i = Some x.
Proof. unfold getitem. destruct (l !! i); naive_solver. Qed.

Lemma getitem_lt {A} (l : list A) i : i < length l → ∃ x, getitem l i = Ok x.
Proof.
  intros [x Hx]%lookup_lt_is_Some_2. exists x. by apply getitem_Ok.
Qed.

Lemma setitem_Ok {A} (l : list A) i x l' :
  setitem l i x = Ok l' ↔ i < length l ∧ l' = <[i:=x]> l.
Proof.
  unfold setitem. case_decide; split.
  - by intros [= <-].
  - by intros [_ ->].
  - done.
  - intros [? _]. lia.
Qed.

Lemma setitem_lt {A} (l : list A) i x :
  i < length l → setitem l i x = Ok (<[i:=x]> l).
Proof. intros. by apply setitem_Ok. Qed.

Lemma for_each_cons {A S} (body : S → A → result S) x xs st :
  for_each body (x :: xs) st = body st x ≫= for_each body xs.
Proof. done. Qed.

Lemma for_each_app {A S} (body : S → A → result S) xs ys st :
  for_each body (xs ++ ys) st = for_each body xs st ≫= for_each body ys.
Proof.
  revert st. induction xs as [|x xs IH]; intros st; simpl; [done|].
  destruct (body st x) as [st'|e]; simpl; [apply IH | done].
Qed.

(** Lengths of the lists built from the usual operations. *)
Ltac list_len :=
  repeat (rewrite ?length_app, ?length_fmap, ?length_replicate,
            ?length_insert, ?length_seq, ?length_take, ?length_drop; simpl).

(** ** Comparisons *)

Lemma Qltb_true x y : Qltb x y = true ↔ (x < y)%Q.
Proof.
  unfold Qltb. rewrite Qlt_alt. destruct (Qcompare x y); naive_solver.
Qed.

Lemma Qltb_false x y : Qltb x y = false ↔ (y <= x)%Q.
Proof.
  rewrite <-not_true_iff_false, Qltb_true. split.
  - apply Qnot_lt_le.
  - apply Qle_not_lt.
Qed.

Lemma pymax_ge_l a b : (a <= pymax a b)%Q.
Proof.
  unfold pymax. destruct (Qltb a b) eqn:E.
  - apply Qltb_true in E. by apply Qlt_le_weak.
  - apply Qle_refl.
Qed.

Lemma pymax_ge_r a b : (b <= pymax a b)%Q.
Proof.
  unfold pymax. destruct (Qltb a b) eqn:E.
  - apply Qle_refl.
  - by apply Qltb_false in E.
Qed.

(** ** The decoder: machine selection *)

Section DecoderProperties.
Variable n_machines : nat.
Variable processing_times : list Q.
Variable ready_times : list Q.
Variable setup_matrix : list (list (option Q)).

Abbreviation candidate := (candidate processing_times ready_times setup_matrix).
Abbreviation best_of := (best_of processing_times ready_times setup_matrix).
Abbreviation scan_step := (scan_step processing_times ready_times setup_matrix).
Abbreviation scan_machines :=
  (scan_machines n_machines processing_times ready_times setup_matrix).
Abbreviation place_job :=
  (place_job n_machines processing_times ready_times setup_matrix).
Abbreviation decode_loop :=
  (decode_loop n_machines processing_times ready_times setup_matrix).
Abbreviation decode_schedule :=
  (decode_schedule n_machines processing_times ready_times setup_matrix).

(** What a candidate is made of. *)
Lemma candidate_Ok st job m start completion :
  candidate st job m = Ok (start, completion) →
  ∃ t prev r p,
    machine_time st !! m = Some t ∧ last_job st !! m = Some prev ∧
    ready_times !! job = Some r ∧ processing_times !! job = Some p ∧
    completion = (start + p)%Q ∧
    match prev with
    | None => start = pymax t r
    | Some job_p =>
        ∃ s, setup_time setup_matrix job_p job = Some s ∧
             start = pymax (t + s) r
    end.
Proof.
  unfold candidate. intros H.
  apply bind_Ok in H as (t & Ht%getitem_Ok & H).
  apply bind_Ok in H as (prev & Hprev%getitem_Ok & H).
  apply bind_Ok in H as (t' & Ht' & H).
  apply bind_Ok in H as (r & Hr%getitem_Ok & H).
  apply bind_Ok in H as (p & Hp%getitem_Ok & H).
  injection H as <- <-.
  exists t, prev, r, p. repeat split; try done.
  destruct prev as [job_p|].
  - apply bind_Ok in Ht' as (row & Hrow%getitem_Ok & Ht').
    apply bind_Ok in Ht' as (c & Hc%getitem_Ok & Ht').
    injection Ht' as <-.
    eexists. split; [|done].
    unfold setup_time. rewrite Hrow. simpl. rewrite Hc. done.
  - by injection Ht' as <-.
Qed.

Lemma scan_step_best st job k b b' :
  best_of st job k b →
  scan_step st job b k = Ok b' →
  best_of st job (S k) b'.
Proof.
  intros Hb H. unfold scan_step in H.
  apply bind_Ok in H as ([start completion] & Hc & H).
  destruct b as [[[bm bs] bc]|]; simpl in *.
  - destruct Hb as (Hbm & Hbc & Hall).
    destruct (Qltb completion bc) eqn:E; injection H as <-.
    + apply Qltb_true in E. split; [lia|]. split; [done|].
      intros m Hm. destruct (decide (m = k)) as [->|Hne].
      * exists start, completion. split; [done|]. split; [apply Qle_refl|lia].
      * destruct (Hall m) as (s & c & Hmc & Hle & _); [lia|].
        exists s, c. split; [done|].
        assert (completion < c)%Q by (eapply Qlt_le_trans; eauto).
        split; [by apply Qlt_le_weak|done].
    + apply Qltb_false in E. split; [lia|]. split; [done|].
      intros m Hm. destruct (decide (m = k)) as [->|Hne].
      * exists start, completion. split; [done|]. split; [done|lia].
      * apply Hall. lia.
  - injection H as <-. subst k. split; [lia|]. split; [done|].
    intros m Hm. assert (m = 0) as -> by lia.
    exists start, completion. split; [done|]. split; [apply Qle_refl|lia].
Qed.

Lemma scan_from_best st job len : ∀ k b b',
  best_of st job k b →
  for_each (scan_step st job) (seq k len) b = Ok b' →
  best_of st job (k + len) b'.
Proof.
  induction len as [|len IH]; intros k b b' Hb H; simpl in H.
  - injection H as <-. by rewrite Nat.add_0_r.
  - apply bind_Ok in H as (b1 & H1 & H).
    replace (k + S len) with (S k + len) by lia.
    eapply IH; [|done]. by eapply scan_step_best.
Qed.

Lemma scan_machines_best st job b :
  scan_machines st job = Ok b → best_of st job n_machines b.
Proof. intros H. by apply (scan_from_best st job n_machines 0 None). Qed.

Lemma commit_Ok st job bm bs bc st' :
  commit st job bm bs bc = Ok st' →
  ∃ row,
    bm < length (machine_time st) ∧ bm < length (last_job st) ∧
    job < length (completion_times st) ∧
    schedule st !! bm = Some row ∧
    st' = DecoderState (<[bm:=bc]> (machine_time st))
                       (<[bm:=Some job]> (last_job st))
                       (<[job:=bc]> (completion_times st))
                       (<[bm:=row ++ [(job, bs, bc)]]> (schedule st)).
Proof.
  unfold commit. intros H.
  apply bind_Ok in H as (mt & [Hmt ->]%setitem_Ok & H).
  apply bind_Ok in H as (lj & [Hlj ->]%setitem_Ok & H).
  apply bind_Ok in H as (ct & [Hct ->]%setitem_Ok & H).
  apply bind_Ok in H as (row & Hrow%getitem_Ok & H).
  apply bind_Ok in H as (sch & [Hsch ->]%setitem_Ok & H).
  injection H as <-. by exists row.
Qed.

(** The step of the decoder: the scan's winner is committed. *)
Lemma place_job_Ok st job st' :
  place_job st job = Ok st' →
  ∃ bm bs bc,
    best_of st job n_machines (Some (bm, bs, bc)) ∧
    commit st job bm bs bc = Ok st'.
Proof.
  unfold place_job. intros H.
  apply bind_Ok in H as (b & Hb%scan_machines_best & H).
  destruct b as [[[bm bs] bc]|]; [|done].
  by exists bm, bs, bc.
Qed.

(** ** Loop invariants *)

Lemma for_each_inv {A S} (P : S → Prop) (body : S → A → result S) xs :
  (∀ st x st', P st → body st x = Ok st' → P st') →
  ∀ st st', P st → for_each body xs st = Ok st' → P st'.
Proof.
  intros Hbody. induction xs as [|x xs IH]; intros st st' HP H; simpl in H.
  - by injection H as <-.
  - apply bind_Ok in H as (st1 & H1 & H). eauto.
Qed.

End DecoderProperties.

(** ** The decoder in Python's arithmetic: its schedule and its choice *)

Section PythonArithmetic.
Import Py.

Lemma ext_ltb_irrefl x : ext_ltb x x = false.
Proof. destruct x; [done| |done]. apply Qltb_false, Qle_refl. Qed.

Lemma ext_ltb_trans x y z :
  ext_ltb x y = true → ext_ltb y z = true → ext_ltb x z = true.
Proof.
  destruct x, y, z; try done. simpl. rewrite !Qltb_true. apply Qlt_trans.
Qed.

Lemma ext_leb_ltb_trans x y z :
  ext_ltb y x = false → ext_ltb y z = true → ext_ltb x z = true.
Proof.
  destruct x, y, z; try done. simpl. rewrite Qltb_false, !Qltb_true.
  apply Qle_lt_trans.
Qed.

Lemma ext_ltb_asym x y : ext_ltb x y = true → ext_ltb y x = false.
Proof.
  destruct x, y; try done. simpl. rewrite Qltb_true, Qltb_false.
  apply Qlt_le_weak.
Qed.

Lemma lt_Some a b : lt a b = true → is_Some (value a) ∧ is_Some (value b).
Proof. unfold lt. destruct (value a), (value b); by eauto. Qed.

Lemma le_Some a b : le a b = true → is_Some (value a) ∧ is_Some (value b).
Proof. unfold le. destruct (value a), (value b); by eauto. Qed.

Lemma lt_irrefl a : lt a a = false.
Proof. unfold lt. destruct (value a); [apply ext_ltb_irrefl|done]. Qed.

Lemma lt_trans a b c : lt a b = true → lt b c = true → lt a c = true.
Proof.
  unfold lt. destruct (value a), (value b), (value c); try done.
  apply ext_ltb_trans.
Qed.

Lemma le_lt_trans a b c : le a b = true → lt b c = true → lt a c = true.
Proof.
  unfold le, lt. destruct (value a), (value b), (value c); try done.
  rewrite negb_true_iff. apply ext_leb_ltb_trans.
Qed.

Lemma lt_le a b : lt a b = true → le a b = true.
Proof.
  unfold le, lt. destruct (value a), (value b); try done.
  intros H. by rewrite (ext_ltb_asym _ _ H).
Qed.

Lemma le_refl a : is_Some (value a) → le a a = true.
Proof. unfold le. intros [x ->]. by rewrite ext_ltb_irrefl. Qed.

(** Two numbers, neither of them NaN, are ordered one way or the other. *)
Lemma not_lt_le a b :
  is_Some (value a) → is_Some (value b) → lt a b = false → le b a = true.
Proof. unfold le, lt. intros [x ->] [y ->] ->. done. Qed.

Lemma not_le_lt a b :
  is_Some (value a) → is_Some (value b) → le a b = false → lt b a = true.
Proof.
  unfold le, lt. intros [x ->] [y ->]. by rewrite negb_false_iff.
Qed.

(** A sum that is a number (no NaN) has numbers as its operands. *)
Lemma add_Some a b c :
  add a b = Ok c → is_Some (value c) → is_Some (value a) ∧ is_Some (value b).
Proof.
  assert (∀ x, to_float a = Ok x → x ≠ S754_nan → is_Some (value a)) as Ha.
  { destruct a as [z|f]; [by eauto|]. intros x [= ->]. by destruct x; eauto. }
  assert (∀ y, to_float b = Ok y → y ≠ S754_nan → is_Some (value b)) as Hb.
  { destruct b as [z|f]; [by eauto|]. intros y [= ->]. by destruct y; eauto. }
  assert (∀ x y, to_float a = Ok x → to_float b = Ok y →
                 is_Some (float_value (SFadd 53 1024 x y)) →
                 is_Some (value a) ∧ is_Some (value b)) as Hsum.
  { intros x y Hx Hy Hs. split.
    - apply (Ha x Hx). intros ->. simpl in Hs. by destruct Hs.
    - apply (Hb y Hy). intros ->. destruct x; simpl in Hs; by destruct Hs. }
  unfold add. destruct a as [x|x], b as [y|y].
  - by eauto.
  - intros H Hc. apply bind_Ok in H as (x' & Hx & H).
    apply bind_Ok in H as (y' & Hy & [= <-]). by apply (Hsum x' y').
  - intros H Hc. apply bind_Ok in H as (x' & Hx & H).
    apply bind_Ok in H as (y' & Hy & [= <-]). by apply (Hsum x' y').
  - intros H Hc. apply bind_Ok in H as (x' & Hx & H).
    apply bind_Ok in H as (y' & Hy & [= <-]). by apply (Hsum x' y').
Qed.

Lemma nonneg_Some x : nonneg x → is_Some (value x).
Proof. by intros [_ ?]%le_Some. Qed.

Lemma pymax_ge_left a b : is_Some (value (pymax a b)) → le a (pymax a b) = true.
Proof.
  unfold pymax. destruct (lt a b) eqn:E; [intros _; by apply lt_le|].
  apply le_refl.
Qed.

Lemma pymax_ge_right a b :
  is_Some (value b) → is_Some (value (pymax a b)) → le b (pymax a b) = true.
Proof.
  unfold pymax. destruct (lt a b) eqn:E; intros Hb Hm; [by apply le_refl|].
  by apply not_lt_le.
Qed.

Context (n_machines : nat) (processing_times ready_times : list number)
        (setup_matrix : list (list (option number))).

Abbreviation candidate_p :=
  (candidate processing_times ready_times setup_matrix).
Abbreviation finish_time_p :=
  (finish_time processing_times ready_times setup_matrix).
Abbreviation best_of_p := (best_of processing_times ready_times setup_matrix).
Abbreviation scan_step_p :=
  (scan_step processing_times ready_times setup_matrix).
Abbreviation scan_machines_p :=
  (scan_machines n_machines processing_times ready_times setup_matrix).
Abbreviation place_job_p :=
  (place_job n_machines processing_times ready_times setup_matrix).
Abbreviation decode_loop_p :=
  (decode_loop n_machines processing_times ready_times setup_matrix).
Abbreviation decode_schedule_p :=
  (decode_schedule n_machines processing_times ready_times setup_matrix).
Abbreviation valid_entry_p := (valid_entry processing_times ready_times).
Abbreviation valid_pair_p := (valid_pair setup_matrix).
Abbreviation valid_machine_p :=
  (valid_machine processing_times ready_times setup_matrix).
Abbreviation schedule_inv_p :=
  (schedule_inv processing_times ready_times setup_matrix).

(** What the function [candidate] computes is the finish time of the
    formula. *)
Lemma candidate_finish_time st job m start completion :
  candidate_p st job m = Ok (start, completion) →
  finish_time_p st job m start completion.
Proof.
  unfold candidate. intros H.
  apply bind_Ok in H as (free & Hfree%getitem_Ok & H).
  apply bind_Ok in H as (prev & Hprev%getitem_Ok & H).
  apply bind_Ok in H as (t & Ht & H).
  apply bind_Ok in H as (r & Hr%getitem_Ok & H).
  apply bind_Ok in H as (p & Hp%getitem_Ok & H).
  apply bind_Ok in H as (c & Hc & H).
  injection H as <- <-.
  exists free, prev, t, r, p. repeat split; try done.
  destruct prev as [job_p|].
  - apply bind_Ok in Ht as (row & Hrow%getitem_Ok & Ht).
    apply bind_Ok in Ht as (cell & Hcell%getitem_Ok & Ht).
    eexists. split; [|done].
    unfold setup_time. rewrite Hrow. simpl. by rewrite Hcell.
  - by injection Ht as <-.
Qed.

Lemma scan_step_lowest st job k b b' :
  best_of_p st job k b →
  scan_step_p st job b k = Ok b' →
  best_of_p st job (S k) b'.
Proof.
  intros Hb H. unfold scan_step in H.
  apply bind_Ok in H as ([start completion] & Hc%candidate_finish_time & H).
  destruct b as [[bmo bs] bc]. destruct Hb as [Hbest Hall].
  destruct (lt completion bc) eqn:E; injection H as <-.
  - assert (lt completion inf = true) as Hinf.
    { destruct bmo as [bm|]; [|by subst bc].
      destruct Hbest as (_ & _ & Hbc). by apply (lt_trans _ bc). }
    split; [split; [lia|done]|].
    intros m Hm. destruct (decide (m = k)) as [->|Hne].
    + exists start, completion. split; [done|]. split; [apply lt_irrefl|lia].
    + destruct (Hall m) as (s & c & Hfin & Hlt & _); [lia|].
      exists s, c. split; [done|]. split.
      * destruct (lt c completion) eqn:E2; [|done].
        by rewrite (lt_trans _ _ _ E2 E) in Hlt.
      * intros _. destruct (le c completion) eqn:E2; [|done].
        by rewrite (le_lt_trans _ _ _ E2 E) in Hlt.
  - split.
    + destruct bmo as [bm|]; [|done].
      destruct Hbest as (? & ? & ?). split; [lia|done].
    + intros m Hm. destruct (decide (m = k)) as [->|Hne].
      * exists start, completion. split; [done|]. split; [done|].
        destruct bmo as [bm|]; [|done]. destruct Hbest. lia.
      * apply Hall. lia.
Qed.

Lemma scan_from_lowest st job len : ∀ k b b',
  best_of_p st job k b →
  for_each (scan_step_p st job) (seq k len) b = Ok b' →
  best_of_p st job (k + len) b'.
Proof.
  induction len as [|len IH]; intros k b b' Hb H; simpl in H.
  - injection H as <-. by rewrite Nat.add_0_r.
  - apply bind_Ok in H as (b1 & H1 & H).
    replace (k + S len) with (S k + len) by lia.
    eapply IH; [|done]. by eapply scan_step_lowest.
Qed.

Lemma scan_machines_lowest st job b :
  scan_machines_p st job = Ok b → best_of_p st job n_machines b.
Proof.
  intros H. apply (scan_from_lowest st job n_machines 0 (None, zero, inf));
    [|done].
  split; [done|]. intros m Hm. lia.
Qed.

(** The step of the decoder: the scan's winner is committed. *)
Lemma place_job_committed st job st' :
  place_job_p st job = Ok st' →
  ∃ bm bs bc row,
    best_of_p st job n_machines (Some bm, bs, bc) ∧
    schedule st !! bm = Some row ∧
    st' = DecoderState (<[bm:=bc]> (machine_time st))
                       (<[bm:=Some job]> (last_job st))
                       (<[job:=bc]> (completion_times st))
                       (<[bm:=row ++ [(job, bs, bc)]]> (schedule st)).
Proof.
  unfold place_job. intros H.
  apply bind_Ok in H as ([[bmo bs] bc] & Hb%scan_machines_lowest & H).
  unfold commit in H. destruct bmo as [bm|]; [|done].
  apply bind_Ok in H as (mt & [Hmt ->]%setitem_Ok & H).
  apply bind_Ok in H as (lj & [Hlj ->]%setitem_Ok & H).
  apply bind_Ok in H as (ct & [Hct ->]%setitem_Ok & H).
  apply bind_Ok in H as (row & Hrow%getitem_Ok & H).
  apply bind_Ok in H as (sch & [Hsch ->]%setitem_Ok & H).
  injection H as <-. by exists bm, bs, bc, row.
Qed.

(** *** Validity of the schedule *)

Lemma valid_rows_snoc row t :
  valid_machine_p row →
  valid_entry_p t →
  (∀ tp, last row = Some tp → valid_pair_p tp t) →
  valid_machine_p (row ++ [t]).
Proof.
  intros [Hentries Hpairs] Ht Hlast. split.
  - intros i t' [Hi|[_ Hi]]%lookup_app_Some; [by eapply Hentries|].
    apply list_lookup_singleton_Some in Hi as [_ <-]. done.
  - intros i tp tq Hp [Hq|[Hlen Hq]]%lookup_app_Some.
    + apply lookup_app_Some in Hp as [Hp|[Hlen _]].
      * by eapply Hpairs.
      * apply lookup_lt_Some in Hq. lia.
    + apply list_lookup_singleton_Some in Hq as [Hi <-].
      apply lookup_app_Some in Hp as [Hp|[Hlen' _]]; [|lia].
      apply Hlast. rewrite last_lookup, <-Hp. f_equal. lia.
Qed.

(** A candidate below the running best is a number, and so is its
    start. *)
Lemma finish_time_start st job m start completion bound :
  finish_time_p st job m start completion →
  lt completion bound = true →
  is_Some (value start).
Proof.
  intros (free & prev & t & r & p & _ & _ & _ & _ & _ & _ & Hadd)
         [Hc _]%lt_Some.
  by destruct (add_Some _ _ _ Hadd Hc).
Qed.

Lemma place_job_valid st job st' :
  Forall nonneg ready_times →
  schedule_inv_p st → place_job_p st job = Ok st' → schedule_inv_p st'.
Proof.
  intros Hready Hinv
    (bm & bs & bc & row & [(Hbm & Hfin & Hinf) _] & Hrow & ->)
    %place_job_committed.
  pose proof (finish_time_start _ _ _ _ _ _ Hfin Hinf) as Hstart.
  destruct Hfin as (free & prev & t & r & p & Hfree & Hprev & Ht & Hr & Hp &
                    Hbs & Hadd).
  intros m row'. simpl. destruct (decide (m = bm)) as [->|Hne].
  - rewrite list_lookup_insert_eq by by eapply lookup_lt_Some.
    intros [= <-]. destruct (Hinv _ _ Hrow) as [Hvalid Hlast]. split.
    + apply valid_rows_snoc; [done| |].
      * exists r, p. split; [done|]. split; [done|]. split; [|done].
        subst bs. apply pymax_ge_right; [|done].
        apply nonneg_Some. by apply (proj1 (Forall_lookup _ _) Hready job).
      * intros [[job_p start_p] end_p] Hl. rewrite Hl in Hlast.
        destruct Hlast as [Hend Hjob].
        rewrite Hfree in Hend. injection Hend as ->.
        rewrite Hprev in Hjob. injection Hjob as ->.
        destruct Ht as (s & Hs & Hsum). exists s, t.
        split; [done|]. split; [done|]. subst bs. by apply pymax_ge_left.
    + rewrite last_snoc. rewrite !list_lookup_insert_eq; [done|..].
      * by eapply lookup_lt_Some.
      * by eapply lookup_lt_Some.
  - rewrite !list_lookup_insert_ne by done. apply Hinv.
Qed.

Lemma decode_schedule_returned order makespan sched :
  decode_schedule_p order = Ok (makespan, sched) →
  ∃ st,
    decode_loop_p order (init_state n_machines order) = Ok st ∧
    max_list (completion_times st) = Ok makespan ∧ sched = schedule st.
Proof.
  unfold decode_schedule. intros H.
  apply bind_Ok in H as (st & Hloop & H).
  apply bind_Ok in H as (ms & Hmax & H). injection H as <- <-.
  by exists st.
Qed.

(** Whatever the decoder returns, when no ready time is negative, is a
    valid schedule. *)
Lemma decode_schedule_valid_rows order makespan sched :
  Forall nonneg ready_times →
  decode_schedule_p order = Ok (makespan, sched) →
  valid_schedule processing_times ready_times setup_matrix sched.
Proof.
  intros Hready (st & Hloop & _ & ->)%decode_schedule_returned.
  assert (schedule_inv_p st) as Hinv.
  { eapply for_each_inv; [| |exact Hloop].
    - intros ???. by apply place_job_valid.
    - intros m row [-> _]%lookup_replicate. split; [|done].
      split; intros i; intros; by rewrite lookup_nil in *. }
  apply Forall_lookup. intros m row Hrow. by apply (Hinv m).
Qed.

End PythonArithmetic.

(** C7 (counterexample). A job of length 2^53 and then a job of length 1
    on one machine: the second entry starts at 2^53 and ends at the double
    nearest to 2^53 + 1, which is 2^53 again, not at its start plus its
    processing time. *)
Lemma rounded_end_differs_from_start_plus_processing :
  Py.well_formed 2 1 [Py.Int (2 ^ 53); Py.Int 1] Py.no_wait_ready
    Py.no_wait_setup ∧
  is_ordering 2 [0; 1] ∧
  Py.decode_schedule 1 [Py.Int (2 ^ 53); Py.Int 1] Py.no_wait_ready
    Py.no_wait_setup [0; 1]
  = Ok (Py.two_53, [[(0, Py.zero, Py.two_53); (1, Py.two_53, Py.two_53)]]) ∧
  ¬ Py.exact_entry [Py.Int (2 ^ 53); Py.Int 1] (1, Py.two_53, Py.two_53).
Proof.
  split; [|split; [|split]].
  - split; try done; repeat constructor.
  - unfold is_ordering. done.
  - vm_compute. reflexivity.
  - intros (p & vs & vp & vf & Hp & Hs & Hvp & Hf & Heq).
    injection Hp as <-. injection Hs as <-. injection Hvp as <-.
    injection Hf as <-. vm_compute in Heq. done.
Qed.

(** Two jobs of length 10^308 on one machine: the second completion
    overflows to infinity, is not below the initial [float("inf")], and
    the commit on [best_machine = None] raises. *)
Example overflowing_completion_raises :
  Py.decode_schedule 1 [Py.Int (10 ^ 308); Py.Int (10 ^ 308)]
    Py.no_wait_ready Py.no_wait_setup [0; 1]
  = Raise TypeError.
Proof. vm_compute. reflexivity. Qed.

(** C7 (amended). On a well-formed instance and an ordering of its
    jobs, in the schedule [decode_schedule] returns, with every sum taken
    as Python takes it (exact on two [int]s, rounded to the nearest double
    otherwise): each entry starts no earlier than its job's ready time and
    ends at its start plus its job's processing time, and each entry
    starts no earlier than the end of the entry before it on its machine
    plus the setup time between the two jobs, an undefined setup entry
    counting as 0. *)
Theorem schedule_validity n_jobs n_machines processing_times ready_times
    setup_matrix order makespan sched :
  Py.well_formed n_jobs n_machines processing_times ready_times
    setup_matrix →
  is_ordering n_jobs order →
  Py.decode_schedule n_machines processing_times ready_times setup_matrix
    order = Ok (makespan, sched) →
  Py.valid_schedule processing_times ready_times setup_matrix sched.
Proof.
  intros Hwf _. apply decode_schedule_valid_rows. by destruct Hwf.
Qed.

(** C8 (counterexample). A job of length 1 and then a job of length 2^53
    on two machines, all setups 0. Machine 0 is free at 1 and would
    finish the second job at 2^53 + 1, machine 1 at 2^53; both sums are
    the double 2^53 for the program, which keeps machine 0. *)
Lemma rounded_tie_keeps_the_later_machine :
  ∃ st st' finish0 finish1,
    Py.decode_loop 2 [Py.Int 1; Py.Int (2 ^ 53)] Py.no_wait_ready
      Py.no_wait_setup [0] (Py.init_state 2 [0; 1]) = Ok st ∧
    Py.place_job 2 [Py.Int 1; Py.Int (2 ^ 53)] Py.no_wait_ready
      Py.no_wait_setup st 1 = Ok st' ∧
    Py.schedule st' = [[(0, Py.zero, Py.one); (1, Py.one, Py.two_53)]; []] ∧
    Py.exact_finish [Py.Int 1; Py.Int (2 ^ 53)] Py.no_wait_ready
      Py.no_wait_setup st 1 0 = Some finish0 ∧
    Py.exact_finish [Py.Int 1; Py.Int (2 ^ 53)] Py.no_wait_ready
      Py.no_wait_setup st 1 1 = Some finish1 ∧
    (finish0 == 2 ^ 53 + 1)%Q ∧ (finish1 == 2 ^ 53)%Q ∧
    (finish1 < finish0)%Q.
Proof.
  eexists _, _, _, _. split; [vm_compute; reflexivity|].
  split; [vm_compute; reflexivity|]. split; [vm_compute; reflexivity|].
  split; [vm_compute; reflexivity|]. split; [vm_compute; reflexivity|].
  split; [by vm_compute|]. split; by vm_compute.
Qed.

(** C8 (amended). Each job of the list, in sequence, goes to the machine
    whose candidate finish time
    [max(free_time + setup, ready_time) + processing_time], with every sum
    taken as Python takes it (rounded to the nearest double unless both
    operands are [int]s), is minimal over all machines: it is below
    infinity, no machine's candidate is smaller, and the candidate of every
    machine of lower index is not even as small; so every candidate that
    is a number (no NaN) is at least the chosen one, and strictly larger
    on a machine of lower index. The chosen machine's free time, last job
    and schedule, and the job's completion time, are updated with that
    candidate. *)
Theorem decoder_machine_selection n_machines processing_times ready_times
    setup_matrix before job after makespan sched :
  Py.decode_schedule n_machines processing_times ready_times setup_matrix
    (before ++ job :: after) = Ok (makespan, sched) →
  ∃ st st' st_final best_machine best_start best_completion row,
    Py.decode_loop n_machines processing_times ready_times setup_matrix
      before (Py.init_state n_machines (before ++ job :: after)) = Ok st ∧
    Py.place_job n_machines processing_times ready_times setup_matrix st job
      = Ok st' ∧
    Py.decode_loop n_machines processing_times ready_times setup_matrix
      after st' = Ok st_final ∧
    Py.schedule st_final = sched ∧
    best_machine < n_machines ∧
    Py.finish_time processing_times ready_times setup_matrix st job
      best_machine best_start best_completion ∧
    Py.lt best_completion Py.inf = true ∧
    (∀ m, m < n_machines →
       ∃ start completion,
         Py.finish_time processing_times ready_times setup_matrix st job m
           start completion ∧
         Py.lt completion best_completion = false ∧
         (m < best_machine → Py.le completion best_completion = false) ∧
         (is_Some (Py.value completion) →
          Py.le best_completion completion = true ∧
          (m < best_machine → Py.lt best_completion completion = true))) ∧
    Py.schedule st !! best_machine = Some row ∧
    Py.machine_time st' =
      <[best_machine:=best_completion]> (Py.machine_time st) ∧
    Py.last_job st' = <[best_machine:=Some job]> (Py.last_job st) ∧
    Py.completion_times st' =
      <[job:=best_completion]> (Py.completion_times st) ∧
    Py.schedule st' =
      <[best_machine:=row ++ [(job, best_start, best_completion)]]>
        (Py.schedule st).
Proof.
  intros (st_final & Hloop & _ & ->)%decode_schedule_returned.
  unfold Py.decode_loop in Hloop. rewrite for_each_app in Hloop.
  apply bind_Ok in Hloop as (st & Hbefore & Hloop).
  rewrite for_each_cons in Hloop.
  apply bind_Ok in Hloop as (st' & Hplace & Hafter).
  destruct (place_job_committed _ _ _ _ _ _ _ Hplace)
    as (bm & bs & bc & row & [(Hbm & Hfin & Hinf) Hall] & Hrow & ->).
  eexists st, _, st_final, bm, bs, bc, row. simpl.
  do 7 (split; [done|]). split; [|done].
  intros m Hm. destruct (Hall m Hm) as (s & c & Hc & Hlt & Hle).
  exists s, c. split; [done|]. split; [done|]. split; [done|].
  intros Hnum. destruct (lt_Some _ _ Hinf) as [Hbc _].
  split; [by apply not_lt_le|].
  intros Hlow. apply not_le_lt; [done|done|by apply Hle].
Qed.

(** ** The decoder: when it returns and when it raises *)

(** Scenarios A and C of the specification: one job on one machine. *)
Example scenario_A :
  decode_schedule 1 [5%Q] [0%Q] [[Some 0%Q]] [0]
  = Ok (5%Q, [[(0, 0%Q, 5%Q)]]).
Proof. reflexivity. Qed.

Example scenario_C : evaluate 1 [3%Q] [10%Q] [[None]] [0] = Ok 13%Q.
Proof. reflexivity. Qed.

(** Scenario B: three jobs, three machines, no setup: every ordering puts
    each job on a machine of its own and finishes at 7. *)
Example scenario_B :
  Forall (λ order,
            evaluate 3 [4%Q; 7%Q; 2%Q] [0%Q; 0%Q; 0%Q]
              (replicate 3 (replicate 3 (Some 0%Q))) order = Ok 7%Q)
         (permutations [0; 1; 2]).
Proof. repeat constructor. Qed.

(** C3 (the zero-job case). On the empty ordering the loop places
    nothing, [completion_times] is the empty list and [max] of it raises
    [ValueError]: no empty schedule with makespan 0 is returned, whatever
    the instance. *)
Theorem decode_schedule_empty_order n_machines processing_times ready_times
    setup_matrix :
  decode_schedule n_machines processing_times ready_times setup_matrix []
  = Raise ValueError.
Proof. reflexivity. Qed.

Section DecoderTotality.
Variable n_jobs : nat.
Variable n_machines : nat.
Variable processing_times : list Q.
Variable ready_times : list Q.
Variable setup_matrix : list (list (option Q)).
Hypothesis Hsized :
  well_sized n_jobs n_machines processing_times ready_times setup_matrix.

Abbreviation candidate' :=
  (candidate processing_times ready_times setup_matrix).
Abbreviation scan_step' :=
  (scan_step processing_times ready_times setup_matrix).
Abbreviation place_job' :=
  (place_job n_machines processing_times ready_times setup_matrix).
Abbreviation sized' := (sized n_jobs n_machines).

Lemma candidate_total len st job m :
  sized' len st → job < n_jobs → m < n_machines →
  ∃ start completion, candidate' st job m = Ok (start, completion).
Proof.
  intros (Hmt & Hlj & _ & _ & Hprev) Hjob Hm.
  destruct Hsized as [_ Hp Hr Hrows Hcols].
  unfold candidate.
  destruct (getitem_lt (machine_time st) m) as [t ->]; [lia|]. simpl.
  destruct (getitem_lt (last_job st) m) as [prev Hget]; [lia|].
  rewrite Hget. simpl. apply getitem_Ok in Hget.
  destruct (getitem_lt ready_times job) as [r Hgr]; [lia|].
  destruct (getitem_lt processing_times job) as [p Hgp]; [lia|].
  destruct prev as [job_p|].
  - assert (job_p < n_jobs) as Hjp.
    { by apply (proj1 (Forall_lookup _ _) Hprev m (Some job_p)). }
    destruct (getitem_lt setup_matrix job_p) as [row Hrow]; [lia|].
    rewrite Hrow. simpl. apply getitem_Ok in Hrow.
    assert (length row = n_jobs) as Hlen.
    { by apply (proj1 (Forall_lookup _ _) Hcols job_p row). }
    destruct (getitem_lt row job) as [s ->]; [lia|]. simpl.
    rewrite Hgr. simpl. rewrite Hgp. simpl. eauto.
  - simpl. rewrite Hgr. simpl. rewrite Hgp. simpl. eauto.
Qed.

Lemma scan_total len st job : sized' len st → job < n_jobs →
  ∀ count k b, k + count ≤ n_machines →
    ∃ b', for_each (scan_step' st job) (seq k count) b = Ok b' ∧
          (is_Some b ∨ 0 < count → is_Some b').
Proof.
  intros Hst Hjob. induction count as [|count IH]; intros k b Hk; simpl.
  - exists b. split; [done|]. intros [?|?]; [done|lia].
  - destruct (candidate_total len st job k) as (start & completion & Hc);
      [done|done|lia|].
    assert (∃ b1, scan_step' st job b k = Ok b1 ∧ is_Some b1)
      as (b1 & Hb1 & Hsome).
    { unfold scan_step. rewrite Hc. simpl.
      destruct b as [[[bm bs] bc]|]; [|by eauto].
      destruct (Qltb completion bc); eauto. }
    rewrite Hb1. simpl.
    destruct (IH (S k) b1) as (b' & Hb' & Himp); [lia|].
    exists b'. split; [done|]. intros _. apply Himp. by left.
Qed.

Lemma place_job_total len st job :
  sized' len st → job < n_jobs → job < len →
  ∃ st', place_job' st job = Ok st' ∧ sized' len st'.
Proof.
  intros Hst Hjob Hlen.
  destruct (scan_total len st job Hst Hjob n_machines 0 None)
    as (b & Hscan & Hsome); [lia|].
  destruct Hsome as [[[bm bs] bc] ->].
  { right. by destruct Hsized. }
  assert (bm < n_machines) as Hbm.
  { by destruct (scan_machines_best _ _ _ _ _ _ _ Hscan) as [? _]. }
  unfold place_job, scan_machines. rewrite Hscan. simpl.
  destruct Hst as (Hmt & Hlj & Hsch & Hct & Hprev).
  unfold commit.
  rewrite setitem_lt by lia. simpl. rewrite setitem_lt by lia. simpl.
  rewrite setitem_lt by lia. simpl.
  destruct (getitem_lt (schedule st) bm) as [row ->]; [lia|]. simpl.
  rewrite setitem_lt by lia. simpl.
  eexists. split; [done|].
  repeat split; simpl; rewrite ?length_insert; try done.
  by apply Forall_insert.
Qed.

Lemma decode_loop_total len order : ∀ st,
  sized' len st →
  Forall (λ job, job < n_jobs ∧ job < len) order →
  ∃ st', decode_loop n_machines processing_times ready_times setup_matrix
           order st = Ok st' ∧ sized' len st'.
Proof.
  unfold decode_loop.
  induction order as [|job order IH]; intros st Hst Hjobs; simpl.
  - by exists st.
  - apply Forall_cons in Hjobs as [[Hjob Hlen] Hjobs].
    destruct (place_job_total len st job) as (st1 & -> & Hst1); [done..|].
    simpl. by apply IH.
Qed.

Lemma sized_init order : sized' (length order) (init_state n_machines order).
Proof.
  repeat split; simpl; rewrite ?length_replicate; try done.
  apply Forall_replicate. done.
Qed.

(** In exact arithmetic the decoder returns on every non-empty ordering
    of a well-sized instance: no index is out of range. In Python's
    arithmetic a completion that overflows still makes it raise
    ([overflowing_completion_raises]). *)
Lemma decode_schedule_total order :
  1 ≤ n_jobs → is_ordering n_jobs order →
  ∃ makespan sched,
    decode_schedule n_machines processing_times ready_times setup_matrix
      order = Ok (makespan, sched).
Proof.
  intros Hn Hperm.
  assert (length order = n_jobs) as Hlen.
  { by rewrite Hperm, length_seq. }
  destruct (decode_loop_total (length order) order
              (init_state n_machines order)) as (st & Hloop & Hst).
  { apply sized_init. }
  { apply Forall_forall. intros job Hjob. rewrite Hperm in Hjob.
    apply elem_of_seq in Hjob. lia. }
  unfold decode_schedule. rewrite Hloop. simpl.
  destruct Hst as (_ & _ & _ & Hct & _).
  destruct (completion_times st) as [|c cs] eqn:E.
  - simpl in Hct. lia.
  - simpl. eauto.
Qed.

End DecoderTotality.

(** ** The random source *)

Lemma bind_rand_Ok {A B} (m : Rand A) (f : A → Rand B) g b g' :
  (m ≫= f) g = Ok (b, g') ↔ ∃ a g1, m g = Ok (a, g1) ∧ f a g1 = Ok (b, g').
Proof.
  unfold mbind, Rand_bind. destruct (m g) as [[a g1]|e]; split.
  - eauto.
  - by intros (a' & g1' & [= -> ->] & ?).
  - done.
  - by intros (a' & g1' & ? & ?).
Qed.

Lemma bind_rand_Raise {A B} (m : Rand A) (f : A → Rand B) g e :
  m g = Raise e → (m ≫= f) g = Raise e.
Proof. unfold mbind, Rand_bind. by intros ->. Qed.

Lemma bind_rand_step {A B} (m : Rand A) (f : A → Rand B) g a g1 :
  m g = Ok (a, g1) → (m ≫= f) g = f a g1.
Proof. unfold mbind, Rand_bind. by intros ->. Qed.

Lemma lift_Ok {A} (r : result A) g a g' :
  lift r g = Ok (a, g') ↔ r = Ok a ∧ g' = g.
Proof.
  unfold lift. destruct r as [a'|e]; split.
  - by intros [= -> ->].
  - by intros [[= ->] ->].
  - done.
  - by intros [? _].
Qed.

Lemma next_draw_total g : ∃ d g', next_draw g = Ok (d, g').
Proof. destruct g; simpl; eauto. Qed.

Lemma random_random_total g : ∃ u g', random_random g = Ok (u, g').
Proof.
  unfold random_random, mbind, Rand_bind.
  destruct (next_draw_total g) as (d & g' & ->). simpl. eauto.
Qed.

Lemma randbelow_total n g :
  ∃ j g', randbelow n g = Ok (j, g') ∧ (0 < n → j < n).
Proof.
  unfold randbelow, mbind, Rand_bind.
  destruct (next_draw_total g) as (d & g' & ->). simpl.
  eexists _, _. split; [done|]. intros Hn.
  pose proof (Z.mod_pos_bound d (Z.of_nat n)). lia.
Qed.

Lemma random_randrange_total n g :
  0 < n → ∃ j g', random_randrange n g = Ok (j, g') ∧ j < n.
Proof.
  intros Hn. unfold random_randrange. case_decide; [lia|].
  destruct (randbelow_total n g) as (j & g' & ? & ?). eauto.
Qed.

Lemma for_each_rand_total {A S} (P : S → Prop) (body : S → A → Rand S) xs :
  (∀ st x g, P st → x ∈ xs → ∃ st' g', body st x g = Ok (st', g') ∧ P st') →
  ∀ st g, P st → ∃ st' g', for_each_rand body xs st g = Ok (st', g') ∧ P st'.
Proof.
  induction xs as [|x xs IH]; intros Hbody st g HP; simpl.
  - by exists st, g.
  - unfold mbind, Rand_bind.
    destruct (Hbody st x g) as (st1 & g1 & -> & HP1); [done|left|].
    apply IH; [|done]. intros st2 y g2 ? ?. apply Hbody; [done|by right].
Qed.

(** ** Exchanging two positions *)

Lemma swap_total {A} (l : list A) i j :
  i < length l → j < length l →
  ∃ l', swap l i j = Ok l' ∧ l' ≡ₚ l.
Proof.
  intros Hi Hj. unfold swap.
  destruct (lookup_lt_is_Some_2 l i Hi) as [x Hx].
  destruct (lookup_lt_is_Some_2 l j Hj) as [y Hy].
  rewrite (proj2 (getitem_Ok l j y) Hy). simpl.
  rewrite (proj2 (getitem_Ok l i x) Hx). simpl.
  rewrite setitem_lt by done. simpl.
  rewrite setitem_lt by by rewrite length_insert.
  eexists. split; [done|].
  apply Permutation_inj. split; [by rewrite !length_insert|].
  exists (λ k, if decide (k = i) then j else if decide (k = j) then i else k).
  split.
  - intros k1 k2. repeat case_decide; lia.
  - intros k. destruct (decide (k = j)) as [->|Hkj].
    + rewrite list_lookup_insert_eq by by rewrite length_insert.
      case_decide; by subst.
    + rewrite list_lookup_insert_ne by done.
      destruct (decide (k = i)) as [->|Hki].
      * by rewrite list_lookup_insert_eq.
      * by rewrite list_lookup_insert_ne.
Qed.

(** ** Swap mutation and the shuffle *)

Lemma mutate_step_total {A} size rate (c0 c : list A) i g :
  c ≡ₚ c0 → length c0 = size → i < size →
  ∃ c' g', mutate_step size rate c i g = Ok (c', g') ∧ c' ≡ₚ c0.
Proof.
  intros Hperm Hlen Hi. unfold mutate_step, mbind, Rand_bind.
  destruct (random_random_total g) as (u & g1 & ->).
  destruct (Qltb u rate).
  - destruct (random_randrange_total size g1) as (j & g2 & -> & Hj); [lia|].
    assert (length c = size) as Hc by by rewrite Hperm.
    destruct (swap_total c i j) as (c' & -> & Hc'); [lia..|].
    simpl. exists c', g2. split; [done|]. by rewrite Hc'.
  - by exists c, g1.
Qed.

Lemma mutate_swap_total {A} (c : list A) rate g :
  ∃ c' g', mutate_swap c rate g = Ok (c', g') ∧ c' ≡ₚ c.
Proof.
  unfold mutate_swap.
  apply (for_each_rand_total (λ c', c' ≡ₚ c)); [|done].
  intros c1 i g1 Hc1 Hi%elem_of_seq.
  apply mutate_step_total; [done|done|lia].
Qed.

Lemma random_shuffle_total {A} (x : list A) g :
  ∃ x' g', random_shuffle x g = Ok (x', g') ∧ x' ≡ₚ x.
Proof.
  unfold random_shuffle.
  apply (for_each_rand_total (λ x', x' ≡ₚ x)); [|done].
  intros x1 i g1 Hx1 Hi%elem_of_reverse%elem_of_seq.
  unfold shuffle_step, mbind, Rand_bind.
  destruct (randbelow_total (i + 1) g1) as (j & g2 & -> & Hj).
  assert (length x1 = length x) as Hlen by by rewrite Hx1.
  destruct (swap_total x1 i j) as (x' & -> & Hx'); [lia..|].
  simpl. exists x', g2. split; [done|]. by rewrite Hx'.
Qed.

(** ** Sampling without replacement *)

Lemma sample_loop_total {A} k : ∀ (pool : list A) g,
  k ≤ length pool →
  ∃ l g', sample_loop pool k g = Ok (l, g') ∧ length l = k ∧ l ⊆+ pool.
Proof.
  induction k as [|k IH]; intros pool g Hk; simpl.
  - exists [], g. split; [done|]. split; [done|]. apply submseteq_nil_l.
  - unfold mbind, Rand_bind.
    destruct (randbelow_total (length pool) g) as (j & g1 & -> & Hj).
    destruct (lookup_lt_is_Some_2 pool j) as [x Hx]; [lia|].
    rewrite (proj2 (getitem_Ok pool j x) Hx). simpl.
    destruct (IH (delete j pool) g1) as (rest & g2 & -> & Hlen & Hsub).
    { rewrite length_delete by eauto. lia. }
    exists (x :: rest), g2. split; [done|]. split; [simpl; lia|].
    rewrite (delete_Permutation pool j x Hx). by apply submseteq_skip.
Qed.

Lemma random_sample_total {A} (population : list A) k g :
  (0 ≤ k ≤ Z.of_nat (length population))%Z →
  ∃ l g', random_sample population k g = Ok (l, g') ∧
          length l = Z.to_nat k ∧ l ⊆+ population.
Proof.
  intros Hk. unfold random_sample. rewrite decide_True by done.
  apply sample_loop_total. lia.
Qed.

Lemma random_sample_out_of_range {A} (population : list A) k g :
  (k < 0 ∨ Z.of_nat (length population) < k)%Z →
  random_sample population k g = Raise ValueError.
Proof.
  intros Hk. unfold random_sample. rewrite decide_False by lia. done.
Qed.

(** ** Order crossover *)

Lemma elem_of_fill_shape (g : nat) front free_front back free_back :
  Some g ∈ (Some <$> front) ++ replicate free_front None ++
           (Some <$> back) ++ replicate free_back (@None nat)
  ↔ g ∈ front ++ back.
Proof.
  rewrite !elem_of_app, !elem_of_replicate, !list_elem_of_fmap.
  split.
  - intros [(g' & [= <-] & ?)|[[? _]|[(g' & [= <-] & ?)|[? _]]]]; auto; done.
  - intros [?|?]; eauto 6.
Qed.

(** A duplicate-free list of numbers below [n] that misses one of them
    is shorter than [n]. *)
Lemma NoDup_bounded_length (n g : nat) (l : list nat) :
  NoDup l → (∀ x, x ∈ l → x < n) → g < n → g ∉ l → length l < n.
Proof.
  intros Hnd Hbound Hg Hnotin.
  assert (g :: l ⊆+ seq 0 n) as Hsub.
  { apply NoDup_submseteq; [by constructor|].
    intros x [->|Hx]%elem_of_cons; apply elem_of_seq; [lia|].
    specialize (Hbound x Hx). lia. }
  apply submseteq_length in Hsub. rewrite length_seq in Hsub. simpl in Hsub.
  lia.
Qed.

(** Writing [gene] into the free slot at [pos]. *)
Lemma fill_step_at n (l r : list (option nat)) pos gene :
  Some gene ∉ l ++ None :: r →
  (if decide (n ≤ pos) then 0 else pos) = length l →
  fill_step n (l ++ None :: r, pos) gene
    = Ok (l ++ Some gene :: r, length l + 1) ∧
  Some gene ∈ l ++ Some gene :: r ∧
  (∀ g, Some g ∈ l ++ None :: r → Some g ∈ l ++ Some gene :: r).
Proof.
  intros Hnotin Hpos. split; [|split].
  - unfold fill_step. rewrite decide_False by done. rewrite Hpos.
    rewrite setitem_lt by (rewrite length_app; simpl; lia). simpl.
    replace (length l) with (length l + 0) at 1 by lia.
    by rewrite insert_app_r.
  - rewrite elem_of_app, elem_of_cons. auto.
  - intros g. rewrite !elem_of_app, !elem_of_cons.
    intros [?|[?|?]]; auto; done.
Qed.

Lemma fill_step_total n child pos gene :
  fill_inv n child pos → gene < n →
  ∃ child' pos',
    fill_step n (child, pos) gene = Ok (child', pos') ∧
    fill_inv n child' pos' ∧
    Some gene ∈ child' ∧
    (∀ g, Some g ∈ child → Some g ∈ child').
Proof.
  intros (front & ff & back & fb & -> & Hlen & Hnd & Hbound & Hpos) Hgene.
  destruct (decide (Some gene ∈ (Some <$> front) ++ replicate ff None ++
                      (Some <$> back) ++ replicate fb None)) as [Hin|Hin].
  { eexists _, _. unfold fill_step. rewrite decide_True by done.
    split; [done|]. split; [|done]. by exists front, ff, back, fb. }
  pose proof Hin as Hnotin. rewrite elem_of_fill_shape in Hnotin.
  pose proof (NoDup_bounded_length n gene _ Hnd Hbound Hgene Hnotin) as Hshort.
  rewrite !length_app, !length_fmap, !length_replicate in Hlen.
  rewrite length_app in Hshort.
  assert (NoDup ((front ++ [gene]) ++ back)) as Hnd_front.
  { rewrite <-(assoc_L (++)). simpl. rewrite <-Permutation_middle.
    by constructor. }
  assert (NoDup (front ++ back ++ [gene])) as Hnd_back.
  { rewrite (assoc_L (++)), <-Permutation_cons_append. by constructor. }
  assert (∀ g, g ∈ gene :: front ++ back → g < n) as Hbound'.
  { intros g [->|Hg]%elem_of_cons; auto. }
  destruct Hpos as [[-> Hpos]|[-> ->]].
  - simpl in Hlen, Hshort. destruct fb as [|fb].
    + (* the tail is full: wrap to the first free slot of the front *)
      destruct ff as [|ff]; [lia|].
      destruct (fill_step_at n [] (replicate ff None ++ (Some <$> back) ++ [])
                  pos gene) as (Hstep & Hgene_in & Hmono).
      { done. }
      { rewrite decide_True by lia. done. }
      eexists _, _. split; [exact Hstep|]. split; [|done].
      exists [gene], ff, back, 0. split; [done|]. simpl.
      list_len. split; [lia|]. split; [done|]. split; [done|]. by right.
    + (* the first free slot of the tail *)
      assert ((Some <$> []) ++ replicate ff None ++ (Some <$> back) ++
                replicate (S fb) (@None nat)
              = (replicate ff None ++ (Some <$> back)) ++
                  None :: replicate fb None) as Hshape.
      { simpl. by rewrite <-(assoc_L (++)). }
      rewrite Hshape in *.
      destruct (fill_step_at n (replicate ff None ++ (Some <$> back))
                  (replicate fb None) pos gene) as (Hstep & Hgene_in & Hmono).
      { done. }
      { list_len. rewrite decide_False by lia. lia. }
      eexists _, _. split; [exact Hstep|]. split; [|done].
      exists [], ff, (back ++ [gene]), fb. simpl. split.
      { rewrite fmap_app. simpl. by rewrite <-!(assoc_L (++)). }
      list_len. split; [lia|]. split; [done|]. split.
      * intros g Hg. apply Hbound'. rewrite elem_of_cons.
        apply elem_of_app in Hg as [?| ->%list_elem_of_singleton]; auto.
      * left. split; [done|]. lia.
  - (* after the wrap: the first free slot of the front *)
    destruct ff as [|ff]; [simpl in Hlen; lia|].
    destruct (fill_step_at n (Some <$> front)
                (replicate ff None ++ (Some <$> back) ++ replicate 0 None)
                (length front) gene) as (Hstep & Hgene_in & Hmono).
    { done. }
    { list_len. rewrite decide_False by lia. done. }
    eexists _, _. split; [exact Hstep|]. split; [|done].
    exists (front ++ [gene]), ff, back, 0. split.
    { rewrite fmap_app. simpl. by rewrite <-!(assoc_L (++)). }
    list_len. split; [lia|]. split; [done|]. split.
    + intros g Hg. apply Hbound'. rewrite elem_of_cons, elem_of_app.
      rewrite !elem_of_app, list_elem_of_singleton in Hg.
      destruct Hg as [[?|?]|?]; auto.
    + right. split; [done|]. list_len. lia.
Qed.

Lemma fill_inv_init n (parent1 : list nat) a b :
  is_ordering n parent1 → a < b → b < n →
  fill_inv n (take a (replicate n None) ++ (Some <$> slice parent1 a b) ++
              drop b (replicate n None)) b.
Proof.
  intros Hperm Hab Hb.
  assert (length parent1 = n) as Hlen by by rewrite Hperm, length_seq.
  assert (slice parent1 a b `sublist_of` parent1) as Hsub.
  { unfold slice. etrans; [apply sublist_take|apply sublist_drop]. }
  exists [], a, (slice parent1 a b), (n - b).
  rewrite take_replicate, drop_replicate, Nat.min_l by lia.
  split; [done|]. split; [|split; [|split]].
  - unfold slice. list_len. lia.
  - simpl. eapply sublist_NoDup; [|done]. rewrite Hperm. apply NoDup_seq.
  - simpl. intros g Hg.
    assert (g ∈ parent1) as Hin by by eapply elem_of_sublist.
    rewrite Hperm in Hin. apply elem_of_seq in Hin. lia.
  - left. split; [done|]. lia.
Qed.

Lemma fill_loop_total n genes_in : ∀ child pos,
  fill_inv n child pos → Forall (λ g, g < n) genes_in →
  ∃ child' pos',
    for_each (fill_step n) genes_in (child, pos) = Ok (child', pos') ∧
    fill_inv n child' pos' ∧
    (∀ g, g ∈ genes_in → Some g ∈ child') ∧
    (∀ g, Some g ∈ child → Some g ∈ child').
Proof.
  induction genes_in as [|gene rest IH]; intros child pos Hinv Hall.
  - exists child, pos. split; [done|]. split; [done|].
    split; [|done]. intros g Hg. by apply elem_of_nil in Hg.
  - apply Forall_cons in Hall as [Hgene Hall]. rewrite for_each_cons.
    destruct (fill_step_total n child pos gene)
      as (child1 & pos1 & -> & Hinv1 & Hgene1 & Hmono1); [done..|].
    simpl.
    destruct (IH child1 pos1) as (child' & pos' & -> & Hinv' & Hall' & Hmono');
      [done..|].
    exists child', pos'. split; [done|]. split; [done|]. split; [|by auto].
    intros g [->|Hg]%elem_of_cons; auto.
Qed.

(** A child without free slot that holds every job is an ordering. *)
Lemma fill_inv_full n child pos :
  fill_inv n child pos →
  (∀ g, g < n → Some g ∈ child) →
  ∃ order, child = Some <$> order ∧ is_ordering n order.
Proof.
  intros (front & ff & back & fb & -> & Hlen & Hnd & Hbound & _) Hall.
  assert (seq 0 n ⊆+ front ++ back) as Hsub.
  { apply NoDup_submseteq; [apply NoDup_seq|].
    intros g Hg%elem_of_seq. apply (elem_of_fill_shape g front ff back fb).
    apply Hall. lia. }
  apply submseteq_length in Hsub. revert Hsub Hlen. list_len. intros Hsub Hlen.
  assert (ff = 0) as -> by lia. assert (fb = 0) as -> by lia.
  exists (front ++ back). split.
  - simpl. by rewrite fmap_app, app_nil_r.
  - apply NoDup_Permutation; [done|apply NoDup_seq|].
    intros g. rewrite elem_of_seq. split.
    + intros Hg%Hbound. lia.
    + intros Hg. apply (elem_of_fill_shape g front 0 back 0).
      apply Hall. lia.
Qed.

(** The two cut points drawn by [random.sample(range(size), 2)]. *)
Lemma sample_cuts n g :
  2 ≤ n →
  ∃ c1 c2 g', random_sample (seq 0 n) 2 g = Ok ([c1; c2], g') ∧
              c1 ≠ c2 ∧ c1 < n ∧ c2 < n.
Proof.
  intros Hn.
  destruct (random_sample_total (seq 0 n) 2 g)
    as (cuts & g' & Hs & Hlen & Hsub).
  { rewrite length_seq. lia. }
  destruct cuts as [|c1 [|c2 [|? ?]]]; try done.
  exists c1, c2, g'. split; [done|].
  apply submseteq_Permutation in Hsub as [k Hk].
  assert (NoDup ([c1; c2] ++ k)) as Hnd by (rewrite <-Hk; apply NoDup_seq).
  apply NoDup_app in Hnd as [Hnd _].
  apply NoDup_cons in Hnd as [Hne _].
  split; [by intros ->; apply Hne; left|].
  split; (eapply (elem_of_seq 0); rewrite Hk; simpl); [left|right; left].
Qed.

Lemma order_crossover_short parent1 parent2 g :
  length parent1 < 2 → order_crossover parent1 parent2 g = Raise ValueError.
Proof.
  intros Hlen. unfold order_crossover, mbind, Rand_bind.
  rewrite random_sample_out_of_range; [done|]. rewrite length_seq. lia.
Qed.

Lemma order_crossover_total n parent1 parent2 g :
  2 ≤ n → is_ordering n parent1 → is_ordering n parent2 →
  ∃ child g',
    order_crossover parent1 parent2 g = Ok (Some <$> child, g') ∧
    is_ordering n child.
Proof.
  intros Hn Hp1 Hp2.
  assert (length parent1 = n) as Hlen by by rewrite Hp1, length_seq.
  unfold order_crossover, mbind, Rand_bind. rewrite Hlen.
  destruct (sample_cuts n g Hn) as (c1 & c2 & g' & -> & Hne & Hc1 & Hc2).
  pose proof (fill_inv_init n parent1 (c1 `min` c2) (c1 `max` c2) Hp1)
    as Hinit.
  destruct (fill_loop_total n
              (drop (c1 `max` c2) parent2 ++ take (c1 `max` c2) parent2)
              _ _ (Hinit ltac:(lia) ltac:(lia)))
    as (child & pos & Hloop & Hinv & Hall & _).
  { apply Forall_forall. intros gene Hgene.
    rewrite Permutation_app_comm, take_drop, Hp2 in Hgene.
    apply elem_of_seq in Hgene. lia. }
  rewrite Hloop. simpl.
  destruct (fill_inv_full n child pos Hinv) as (order & -> & Horder).
  { intros gene Hgene. apply Hall.
    rewrite Permutation_app_comm, take_drop, Hp2. apply elem_of_seq. lia. }
  by exists order, g'.
Qed.

(** C5. For parents that are orderings of [0 .. n - 1], whatever the
    draws: a child returned by [order_crossover] has every slot filled
    and is again an ordering of [0 .. n - 1], and with at least two jobs a
    child is returned; [mutate_swap] returns, on every list, a permutation
    of that list, hence an ordering of [0 .. n - 1] when given one. *)
Theorem permutation_invariant n parent1 parent2 chromosome mutation_rate g :
  is_ordering n parent1 → is_ordering n parent2 → is_ordering n chromosome →
  (∀ child g', order_crossover parent1 parent2 g = Ok (child, g') →
     ∃ order, child = Some <$> order ∧ is_ordering n order) ∧
  (2 ≤ n → ∃ child g', order_crossover parent1 parent2 g = Ok (child, g')) ∧
  (∃ mutated g', mutate_swap chromosome mutation_rate g = Ok (mutated, g') ∧
     is_ordering n mutated).
Proof.
  intros Hp1 Hp2 Hc. split; [|split].
  - intros child g' H. destruct (decide (2 ≤ n)) as [Hn|Hn].
    + destruct (order_crossover_total n parent1 parent2 g Hn Hp1 Hp2)
        as (order & g1 & H1 & Horder).
      rewrite H1 in H. injection H as <- <-. by exists order.
    + rewrite order_crossover_short in H; [done|].
      rewrite Hp1, length_seq. lia.
  - intros Hn.
    destruct (order_crossover_total n parent1 parent2 g Hn Hp1 Hp2)
      as (order & g1 & H1 & _).
    eauto.
  - destruct (mutate_swap_total chromosome mutation_rate g)
      as (mutated & g' & H & Hperm).
    exists mutated, g'. split; [done|]. unfold is_ordering. by rewrite Hperm.
Qed.

(** ** Selection *)

Lemma min_by_cost_fold xs : ∀ x,
  let m := foldl (λ m y, if Qltb (cost y) (cost m) then y else m) x xs in
  m ∈ x :: xs ∧ ∀ y, y ∈ x :: xs → (cost m <= cost y)%Q.
Proof.
  induction xs as [|z xs IH]; intros x; simpl.
  - split; [left|]. intros y ->%list_elem_of_singleton. apply Qle_refl.
  - destruct (Qltb (cost z) (cost x)) eqn:E.
    + destruct (IH z) as [Hin Hle]. split; [by right|].
      intros y [->|Hy]%elem_of_cons; [|by apply Hle].
      apply Qltb_true in E.
      eapply Qle_trans; [apply Hle; left|by apply Qlt_le_weak].
    + destruct (IH x) as [Hin Hle]. split.
      * apply elem_of_cons in Hin as [->|Hin]; [left|right; by right].
      * intros y [->|[->|Hy]%elem_of_cons]%elem_of_cons.
        -- apply Hle. left.
        -- apply Qltb_false in E. eapply Qle_trans; [apply Hle; left|done].
        -- apply Hle. by right.
Qed.

Lemma min_by_cost_Ok xs m :
  min_by_cost xs = Ok m → m ∈ xs ∧ ∀ y, y ∈ xs → (cost m <= cost y)%Q.
Proof.
  destruct xs as [|x xs]; [done|]. simpl. intros [= <-].
  apply min_by_cost_fold.
Qed.

Lemma min_by_cost_total xs : xs ≠ [] → ∃ m, min_by_cost xs = Ok m.
Proof. destruct xs; [done|]. simpl. eauto. Qed.

Lemma tournament_selection_total population k g :
  (1 ≤ k ≤ Z.of_nat (length population))%Z →
  ∃ winner g', tournament_selection population k g = Ok (winner, g') ∧
               winner ∈ population.
Proof.
  intros Hk. unfold tournament_selection, mbind, Rand_bind.
  destruct (random_sample_total population k g)
    as (candidates & g' & -> & Hlen & Hsub); [lia|].
  destruct (min_by_cost_total candidates) as [winner Hw].
  { intros ->. simpl in Hlen. lia. }
  rewrite Hw. simpl. exists winner, g'. split; [done|].
  apply min_by_cost_Ok in Hw as [Hin _]. by eapply elem_of_submseteq.
Qed.

Lemma tournament_selection_out_of_range population k g :
  (k ≤ 0 ∨ Z.of_nat (length population) < k)%Z →
  tournament_selection population k g = Raise ValueError.
Proof.
  intros Hk. unfold tournament_selection, mbind, Rand_bind.
  destruct (decide (k = 0%Z)) as [->|Hk0].
  - unfold random_sample. rewrite decide_True by lia. done.
  - rewrite random_sample_out_of_range by lia. done.
Qed.

(** ** The genetic algorithm: the history *)

Lemma non_increasing_snoc h x y :
  non_increasing h → last h = Some x → (y <= x)%Q →
  non_increasing (h ++ [y]).
Proof.
  intros Hh Hlast Hle g a b Ha Hb.
  apply lookup_app_Some in Hb as [Hb|[Hlen Hb]].
  - apply (Hh g a b); [|done].
    apply lookup_app_Some in Ha as [Ha|[Hlen _]]; [done|].
    apply lookup_lt_Some in Hb. lia.
  - apply list_lookup_singleton_Some in Hb as [Hg <-].
    apply lookup_app_Some in Ha as [Ha|[Hlen' _]]; [|lia].
    rewrite last_lookup in Hlast.
    replace (pred (length h)) with g in Hlast by lia.
    rewrite Ha in Hlast. by injection Hlast as ->.
Qed.

Section GaHistory.
Variable n_machines : nat.
Variable processing_times : list Q.
Variable ready_times : list Q.
Variable setup_matrix : list (list (option Q)).
Variable pop_size : Z.
Variable crossover_rate : Q.
Variable mutation_rate : Q.
Variable tournament_k : Z.

Abbreviation breed' :=
  (breed n_machines processing_times ready_times setup_matrix crossover_rate
         mutation_rate tournament_k).
Abbreviation generation' :=
  (generation n_machines processing_times ready_times setup_matrix pop_size
              crossover_rate mutation_rate tournament_k).
Abbreviation generations_loop' :=
  (generations_loop n_machines processing_times ready_times setup_matrix
                    pop_size crossover_rate mutation_rate tournament_k).

(** Breeding only appends to the new population. *)
Lemma breed_extends population need : ∀ new_population g new_population' g',
  breed' population new_population need g = Ok (new_population', g') →
  ∃ children, new_population' = new_population ++ children.
Proof.
  induction need as [need IH] using lt_wf_ind.
  intros new_population g new_population' g' H.
  destruct need as [|need]; simpl in H.
  - injection H as <- _. exists []. by rewrite app_nil_r.
  - apply bind_rand_Ok in H as ([child1 child2] & g1 & _ & H).
    apply bind_rand_Ok in H as (cost1 & g2 & _ & H).
    destruct need as [|need].
    + injection H as <- _. eauto.
    + apply bind_rand_Ok in H as (cost2 & g3 & _ & H).
      apply IH in H as [children ->]; [|lia].
      rewrite <-!(assoc_L (++)). eauto.
Qed.

(** A generation appends to the history a cost that does not exceed the
    last one. *)
Lemma generation_history st g st' g' :
  generation' st g = Ok (st', g') →
  history_inv st →
  history_inv st' ∧
  ∃ c_last c_new,
    last (best_history st) = Some c_last ∧
    best_history st' = best_history st ++ [c_new] ∧
    (c_new <= c_last)%Q.
Proof.
  unfold generation. intros H (elite0 & Hmin0 & Hlast).
  apply bind_rand_Ok in H as (elite & g1 & [Helite ->]%lift_Ok & H).
  apply bind_rand_Ok in H as (new_population & g2 & Hbreed & H).
  apply bind_rand_Ok in H as (best_gen & g3 & [Hgen ->]%lift_Ok & H).
  injection H as <- <-. simpl.
  rewrite Hmin0 in Helite. injection Helite as ->.
  split.
  - exists best_gen. split; [done|]. simpl. by rewrite last_snoc.
  - exists (cost elite), (cost best_gen). split; [done|]. split; [done|].
    apply breed_extends in Hbreed as [children ->].
    apply min_by_cost_Ok in Hgen as [_ Hle].
    apply (Hle (Individual (chromosome elite) (cost elite))). left.
Qed.

Lemma generations_loop_history gens : ∀ st g st' g',
  generations_loop' gens st g = Ok (st', g') →
  history_inv st → non_increasing (best_history st) →
  non_increasing (best_history st').
Proof.
  induction gens as [|gens IH]; intros st g st' g' H Hinv Hmono; simpl in H.
  - by injection H as <- _.
  - apply bind_rand_Ok in H as (st1 & g1 & Hgen & H).
    destruct (generation_history _ _ _ _ Hgen Hinv)
      as (Hinv1 & c_last & c_new & Hlast & Hhist & Hle).
    eapply IH; [done|done|]. rewrite Hhist.
    by eapply non_increasing_snoc.
Qed.

(** After a generation the running best costs what the history ended
    with before that generation. *)
Lemma generation_best st g st' g' :
  generation' st g = Ok (st', g') →
  best_inv st →
  best_inv st' ∧
  ∃ c_last c_new,
    last (best_history st) = Some c_last ∧
    best_history st' = best_history st ++ [c_new] ∧
    (cost (running_best st') == c_last)%Q ∧
    (c_new <= c_last)%Q.
Proof.
  intros Hgen [Hinv (c & Hlast & Hle)].
  destruct (generation_history _ _ _ _ Hgen Hinv)
    as (Hinv' & c_last & c_new & Hlast' & Hhist & Hnew).
  rewrite Hlast in Hlast'. injection Hlast' as <-.
  assert (cost (running_best st') == c)%Q as Hbest.
  { revert Hgen. unfold generation. intros H.
    destruct Hinv as (elite0 & Hmin0 & Hlast0).
    rewrite Hlast in Hlast0. injection Hlast0 as ->.
    apply bind_rand_Ok in H as (elite & g1 & [Helite ->]%lift_Ok & H).
    rewrite Hmin0 in Helite. injection Helite as <-.
    apply bind_rand_Ok in H as (new_population & g2 & _ & H).
    apply bind_rand_Ok in H as (best_gen & g3 & _ & H).
    injection H as <- _. simpl.
    destruct (Qltb (cost elite0) (cost (running_best st))) eqn:E.
    - apply Qeq_refl.
    - apply Qltb_false in E. by apply Qle_antisym. }
  split.
  - split; [done|]. exists c_new. rewrite Hhist, last_snoc.
    split; [done|]. by rewrite Hbest.
  - by exists c, c_new.
Qed.

Lemma generations_loop_best gens : ∀ st g st' g',
  generations_loop' (S gens) st g = Ok (st', g') →
  best_inv st →
  ∃ h x y,
    best_history st' = h ++ [x; y] ∧
    (cost (running_best st') == x)%Q ∧ (y <= x)%Q.
Proof.
  induction gens as [|gens IH]; intros st g st' g' H Hinv;
    cbn [generations_loop] in H;
    apply bind_rand_Ok in H as (st1 & g1 & Hgen & H);
    destruct (generation_best _ _ _ _ Hgen Hinv)
      as (Hinv1 & c_last & c_new & Hlast & Hhist & Hbest & Hnew).
  - injection H as <- _.
    apply last_Some in Hlast as [h Hh].
    exists h, c_last, c_new. rewrite Hhist, Hh, <-(assoc_L (++)). done.
  - by eapply IH.
Qed.

End GaHistory.

(** What the returned best is, once there is a generation: its cost is
    the entry of the history before the last one, not the last. *)
Lemma best_cost_is_entry_before_last n_jobs n_machines processing_times
    ready_times setup_matrix pop_size generations crossover_rate
    mutation_rate tournament_k g res g' :
  (1 ≤ generations)%Z →
  genetic_algorithm n_jobs n_machines processing_times ready_times
    setup_matrix pop_size generations crossover_rate mutation_rate
    tournament_k g = Ok (res, g') →
  ∃ h x y,
    history res = h ++ [x; y] ∧ (cost (best res) == x)%Q ∧ (y <= x)%Q.
Proof.
  unfold genetic_algorithm. intros Hgens H.
  apply bind_rand_Ok in H as (population & g1 & _ & H).
  apply bind_rand_Ok in H as (best & g2 & [Hbest ->]%lift_Ok & H).
  apply bind_rand_Ok in H as (st & g3 & Hloop & H).
  injection H as <- _. simpl.
  destruct (Z.to_nat generations) as [|gens] eqn:E; [lia|].
  eapply generations_loop_best; [done|].
  split; [by exists best|]. exists (cost best). split; [done|].
  apply Qle_refl.
Qed.

(** C6. The history returned by [genetic_algorithm] is non-increasing
    from generation 0 on: every entry is at most the entry before it,
    because each new population starts with a copy of the elite of the
    population before it. *)
Theorem history_non_increasing n_jobs n_machines processing_times ready_times
    setup_matrix pop_size generations crossover_rate mutation_rate
    tournament_k g res g' :
  genetic_algorithm n_jobs n_machines processing_times ready_times
    setup_matrix pop_size generations crossover_rate mutation_rate
    tournament_k g = Ok (res, g') →
  non_increasing (history res).
Proof.
  unfold genetic_algorithm. intros H.
  apply bind_rand_Ok in H as (population & g1 & _ & H).
  apply bind_rand_Ok in H as (best & g2 & [Hbest ->]%lift_Ok & H).
  apply bind_rand_Ok in H as (st & g3 & Hloop & H).
  injection H as <- _. simpl.
  eapply generations_loop_history; [done| |].
  - by exists best.
  - intros i x y _ Hy. done.
Qed.

(** ** Children without free slot *)

Lemma genes_fmap (order : list nat) : genes (Some <$> order) = Ok order.
Proof.
  induction order as [|job order IH]; [done|].
  rewrite fmap_cons. cbn [genes]. by rewrite IH.
Qed.

(** A permutation of a child without free slot has no free slot. *)
Lemma Permutation_fmap_Some (mutated : list (option nat)) (order : list nat) :
  mutated ≡ₚ Some <$> order →
  ∃ order', mutated = Some <$> order' ∧ order' ≡ₚ order.
Proof.
  intros Hperm. exists (default 0 <$> mutated). split.
  - assert (Forall is_Some mutated) as Hall.
    { rewrite Hperm. apply Forall_fmap, Forall_true. by eexists. }
    clear Hperm. induction Hall as [|x l [y ->] _ IH]; [done|].
    rewrite !fmap_cons. simpl. by rewrite <-IH.
  - rewrite Hperm, <-list_fmap_compose. by rewrite list_fmap_id.
Qed.

(** ** The lower bound *)

(** C1 (failing instance). Two unit jobs ready at 0, two machines, a
    setup of 5 between the jobs: the decoder runs each job alone on a
    machine and finishes at 1, while [calcular_ddlb] returns 6, the
    critical-path term [0 + 1 + 5] that charges a job its outgoing
    setup although nothing follows it. *)
Theorem lower_bound_above_makespan :
  well_formed 2 2 unit_processing unit_ready even_setup ∧
  is_ordering 2 [0; 1] ∧
  decode_schedule 2 unit_processing unit_ready even_setup [0; 1]
    = Ok (1%Q, [[(0, 0%Q, 1%Q)]; [(1, 0%Q, 1%Q)]]) ∧
  calcular_ddlb 2 2 unit_processing even_setup unit_ready = Ok 6%Q ∧
  (1 < 6)%Q.
Proof.
  split; [repeat constructor; by simpl|].
  split; [unfold is_ordering; compute_done|].
  split; [vm_compute; reflexivity|].
  split; [vm_compute; reflexivity|reflexivity].
Qed.

Lemma outgoing_undefined n count : ∀ k,
  k + count ≤ S n →
  for_each (outgoing_step (replicate (S n) (replicate (S n) None)) 0)
           (seq k count) [] = Ok [].
Proof.
  induction count as [|count IH]; intros k Hk; [done|].
  cbn [seq]. rewrite for_each_cons.
  assert (outgoing_step (replicate (S n) (replicate (S n) None)) 0 [] k
          = Ok []) as ->.
  { unfold outgoing_step. case_decide; [done|].
    rewrite (proj2 (getitem_Ok _ 0 (replicate (S n) None)))
      by (apply lookup_replicate_2; lia).
    cbn [mbind result_bind].
    rewrite (proj2 (getitem_Ok _ k None)) by (apply lookup_replicate_2; lia).
    done. }
  simpl. apply IH. lia.
Qed.

Lemma delta_step_undefined n deltas :
  delta_step (S n) (replicate (S n) (replicate (S n) None)) deltas 0
  = Raise ValueError.
Proof. unfold delta_step. rewrite outgoing_undefined by lia. done. Qed.

(** Without jobs the estimator returns 0 as it stands. *)
Lemma calcular_ddlb_no_job n_machines :
  ∃ bound, calcular_ddlb 0 (S n_machines) [] [] [] = Ok bound ∧
           (bound == 0)%Q.
Proof. eexists. split; [done|]. done. Qed.

(** C4 (failing instances). With a single job the generator of its
    outgoing setups is empty and [min] raises [ValueError], whatever the
    matrix holds; the same happens with any number of jobs when no setup
    is defined. No fallback value is returned. *)
Theorem calcular_ddlb_no_outgoing_setup :
  (∀ n_machines processing_times setup_matrix ready_times,
     calcular_ddlb 1 n_machines processing_times setup_matrix ready_times
     = Raise ValueError) ∧
  (∀ n n_machines processing_times ready_times,
     calcular_ddlb (S n) n_machines processing_times
       (replicate (S n) (replicate (S n) None)) ready_times
     = Raise ValueError).
Proof.
  split; [done|]. intros n n_machines processing_times ready_times.
  unfold calcular_ddlb. cbn [seq].
  rewrite for_each_cons, delta_step_undefined. done.
Qed.

(** ** The genetic algorithm: the returned best *)

(** C2 (failing run). One generation on the uneven instance with a
    population of two: both initial individuals cost 102, the only child
    bred costs 3 and is recorded in the history, but [best] is compared
    with the elite only at the start of a generation, so the individual
    returned still costs 102, above the last entry of the history. *)
Theorem last_generation_not_in_best :
  well_formed 2 1 unit_processing unit_ready uneven_setup ∧
  genetic_algorithm 2 1 unit_processing unit_ready uneven_setup
    2 1 (9 # 10) (2 # 100) 1 improving_draws
  = Ok (GaResult (Individual [0; 1] 102%Q) [102%Q; 3%Q], []) ∧
  (3 < 102)%Q.
Proof.
  split; [repeat constructor; by simpl|].
  split; [vm_compute; reflexivity|reflexivity].
Qed.

(** ** The genetic algorithm: its configuration *)

(** C9 (counterexample). No generation and a tournament size of 5 for a
    population of 2: the call is not rejected, it returns the best of the
    initial population. *)
Lemma invalid_configuration_accepted :
  genetic_algorithm 2 1 unit_processing unit_ready uneven_setup
    2 0 (9 # 10) (2 # 100) 5 [1; 1]%Z
  = Ok (GaResult (Individual [0; 1] 102%Q) [102%Q], []).
Proof. vm_compute. reflexivity. Qed.

Lemma repeat_rand_length {A} (m : Rand A) : ∀ n g xs g',
  repeat_rand m n g = Ok (xs, g') → length xs = n.
Proof.
  induction n as [|n IH]; intros g xs g' H; simpl in H.
  - by injection H as <- _.
  - apply bind_rand_Ok in H as (x & g1 & Hx & H).
    apply bind_rand_Ok in H as (xs' & g2 & Hxs & H).
    injection H as <- _. simpl. f_equal. by eapply IH.
Qed.

Section Configuration.
Variable n_jobs : nat.
Variable n_machines : nat.
Variable processing_times : list Q.
Variable ready_times : list Q.
Variable setup_matrix : list (list (option Q)).
Variable pop_size : Z.
Variable generations : Z.
Variable crossover_rate : Q.
Variable mutation_rate : Q.
Variable tournament_k : Z.

Abbreviation initial_population :=
  (repeat_rand (create_individual n_jobs n_machines processing_times
                  ready_times setup_matrix) (Z.to_nat pop_size)).
Abbreviation generation_c :=
  (generation n_machines processing_times ready_times setup_matrix pop_size
     crossover_rate mutation_rate tournament_k).
Abbreviation genetic_algorithm_c :=
  (genetic_algorithm n_jobs n_machines processing_times ready_times
     setup_matrix pop_size generations crossover_rate mutation_rate
     tournament_k).

(** Nothing comes before the initial population: what its creation
    raises is what the run raises. *)
Lemma initial_population_error g e :
  initial_population g = Raise e → genetic_algorithm_c g = Raise e.
Proof. intros H. unfold genetic_algorithm. by apply bind_rand_Raise. Qed.

(** The run after the initial population. *)
Lemma genetic_algorithm_after_initial population g g1 best0 :
  initial_population g = Ok (population, g1) →
  min_by_cost population = Ok best0 →
  genetic_algorithm_c g =
    (st ← generations_loop n_machines processing_times ready_times
            setup_matrix pop_size crossover_rate mutation_rate tournament_k
            (Z.to_nat generations) (GaState population best0 [cost best0]);
     mret (GaResult (running_best st) (best_history st))) g1.
Proof.
  intros Hinit Hbest. unfold genetic_algorithm.
  rewrite (bind_rand_step _ _ _ _ _ Hinit).
  by rewrite (bind_rand_step _ _ g1 best0 g1) by by rewrite Hbest.
Qed.

(** The first tournament of a generation: what it raises is what the
    generation raises, when an individual is missing beside the elite. *)
Lemma generation_first_tournament st g e :
  population st ≠ [] →
  (2 ≤ pop_size)%Z →
  tournament_selection (population st) tournament_k g = Raise e →
  generation_c st g = Raise e.
Proof.
  intros Hne Hpop Hk. unfold generation.
  destruct (min_by_cost_total (population st) Hne) as [elite Helite].
  rewrite (bind_rand_step _ _ g elite g) by by rewrite Helite.
  apply bind_rand_Raise. cbn [length].
  destruct (Z.to_nat pop_size - 1) as [|need] eqn:Eneed; [lia|].
  cbn [breed]. apply bind_rand_Raise.
  unfold breed_pair. by apply bind_rand_Raise.
Qed.

End Configuration.

(** C9 (amended). [genetic_algorithm] checks nothing of its
    configuration and has no error of its own for it. Whatever the draws:
    - a population size of 0 or less gives an empty initial population,
      and [min] over it raises [ValueError], before the loop;
    - nothing comes before the creation of the initial population: what
      that raises is what the run raises, whatever the configuration;
    - once the initial population is there (a population size of 1 or
      more), no generation (0 or less) returns its best individual and a
      history of one entry, whatever the tournament size; with a
      generation to run and two individuals or more, a tournament size
      below 0 or above the population size raises the [ValueError] of
      [random.sample], and a tournament size of 0 the [ValueError] of
      [min] over the empty sample, both in the first tournament of the
      first generation; and a tournament of the whole population
      returns one of its individuals. *)
Theorem configuration_not_validated n_jobs n_machines processing_times
    ready_times setup_matrix pop_size generations crossover_rate
    mutation_rate tournament_k g :
  ((pop_size ≤ 0)%Z →
     repeat_rand (create_individual n_jobs n_machines processing_times
                    ready_times setup_matrix) (Z.to_nat pop_size) g
       = Ok ([], g) ∧
     min_by_cost [] = Raise ValueError ∧
     genetic_algorithm n_jobs n_machines processing_times ready_times
       setup_matrix pop_size generations crossover_rate mutation_rate
       tournament_k g = Raise ValueError) ∧
  (∀ e,
     repeat_rand (create_individual n_jobs n_machines processing_times
                    ready_times setup_matrix) (Z.to_nat pop_size) g
       = Raise e →
     genetic_algorithm n_jobs n_machines processing_times ready_times
       setup_matrix pop_size generations crossover_rate mutation_rate
       tournament_k g = Raise e) ∧
  (∀ population g1,
     (1 ≤ pop_size)%Z →
     repeat_rand (create_individual n_jobs n_machines processing_times
                    ready_times setup_matrix) (Z.to_nat pop_size) g
       = Ok (population, g1) →
     ∃ best0,
       min_by_cost population = Ok best0 ∧
       Z.of_nat (length population) = pop_size ∧
       ((generations ≤ 0)%Z →
          genetic_algorithm n_jobs n_machines processing_times ready_times
            setup_matrix pop_size generations crossover_rate mutation_rate
            tournament_k g = Ok (GaResult best0 [cost best0], g1)) ∧
       ((1 ≤ generations)%Z → (2 ≤ pop_size)%Z →
          ((tournament_k < 0 ∨ pop_size < tournament_k)%Z →
             random_sample population tournament_k g1 = Raise ValueError ∧
             generation n_machines processing_times ready_times setup_matrix
               pop_size crossover_rate mutation_rate tournament_k
               (GaState population best0 [cost best0]) g1
               = Raise ValueError ∧
             genetic_algorithm n_jobs n_machines processing_times
               ready_times setup_matrix pop_size generations crossover_rate
               mutation_rate tournament_k g = Raise ValueError) ∧
          (tournament_k = 0%Z →
             random_sample population tournament_k g1 = Ok ([], g1) ∧
             min_by_cost [] = Raise ValueError ∧
             generation n_machines processing_times ready_times setup_matrix
               pop_size crossover_rate mutation_rate tournament_k
               (GaState population best0 [cost best0]) g1
               = Raise ValueError ∧
             genetic_algorithm n_jobs n_machines processing_times
               ready_times setup_matrix pop_size generations crossover_rate
               mutation_rate tournament_k g = Raise ValueError) ∧
          (tournament_k = pop_size →
             ∃ winner g2,
               tournament_selection population tournament_k g1
                 = Ok (winner, g2) ∧
               winner ∈ population))).
Proof.
  split; [|split].
  - intros Hpop. replace (Z.to_nat pop_size) with 0 by lia.
    split; [done|]. split; [done|].
    unfold genetic_algorithm. by replace (Z.to_nat pop_size) with 0 by lia.
  - intros e. apply initial_population_error.
  - intros population g1 Hpop Hinit.
    pose proof (repeat_rand_length _ _ _ _ _ Hinit) as Hlen.
    destruct (min_by_cost_total population) as [best0 Hbest].
    { intros ->. simpl in Hlen. lia. }
    assert (population ≠ []) as Hne.
    { intros ->. simpl in Hlen. lia. }
    exists best0. split; [done|]. split; [lia|]. split.
    + intros Hgen.
      rewrite (genetic_algorithm_after_initial _ _ _ _ _ _ _ _ _ _ _ _ _ _
                 Hinit Hbest).
      by replace (Z.to_nat generations) with 0 by lia.
    + intros Hgen Hpop2.
      assert (∀ e,
        tournament_selection population tournament_k g1 = Raise e →
        generation n_machines processing_times ready_times setup_matrix
          pop_size crossover_rate mutation_rate tournament_k
          (GaState population best0 [cost best0]) g1 = Raise e ∧
        genetic_algorithm n_jobs n_machines processing_times ready_times
          setup_matrix pop_size generations crossover_rate mutation_rate
          tournament_k g = Raise e) as Hraise.
      { intros e He.
        assert (generation n_machines processing_times ready_times
                  setup_matrix pop_size crossover_rate mutation_rate
                  tournament_k (GaState population best0 [cost best0]) g1
                = Raise e) as Hfirst.
        { by apply generation_first_tournament. }
        split; [done|].
        rewrite (genetic_algorithm_after_initial _ _ _ _ _ _ _ _ _ _ _ _ _ _
                   Hinit Hbest).
        apply bind_rand_Raise.
        destruct (Z.to_nat generations) as [|gens] eqn:Egens; [lia|].
        cbn [generations_loop]. by apply bind_rand_Raise. }
      split; [|split].
      * intros Hk.
        assert (random_sample population tournament_k g1 = Raise ValueError)
          as Hsample by (apply random_sample_out_of_range; lia).
        split; [done|]. apply Hraise.
        unfold tournament_selection. by apply bind_rand_Raise.
      * intros ->.
        assert (random_sample population 0 g1 = Ok ([], g1)) as Hsample.
        { unfold random_sample. rewrite decide_True by lia. done. }
        split; [done|]. split; [done|]. apply Hraise.
        unfold tournament_selection.
        by rewrite (bind_rand_step _ _ _ _ _ Hsample).
      * intros ->.
        destruct (tournament_selection_total population pop_size g1)
          as (w & g2 & ? & ?); [lia|].
        by exists w, g2.
Qed.

(** ** Order crossover on fewer than two jobs *)

Section CrossoverBranch.
Variable n_machines : nat.
Variable processing_times : list Q.
Variable ready_times : list Q.
Variable setup_matrix : list (list (option Q)).
Variable crossover_rate : Q.
Variable mutation_rate : Q.
Variable tournament_k : Z.

Lemma breed_short_crossover population new_population need g :
  Forall (λ ind, length (chromosome ind) ≤ 1) population →
  crossover_taken crossover_rate tournament_k population g →
  breed n_machines processing_times ready_times setup_matrix crossover_rate
        mutation_rate tournament_k population new_population (S need) g
  = Raise ValueError.
Proof.
  intros Hshort (winner1 & g1 & winner2 & g2 & u & g3 & Hw1 & Hw2 & Hu & Hlt).
  cbn [breed]. apply bind_rand_Raise. unfold breed_pair.
  rewrite (bind_rand_step _ _ _ _ _ Hw1), (bind_rand_step _ _ _ _ _ Hw2).
  rewrite (bind_rand_step _ _ _ _ _ Hu).
  apply Qltb_true in Hlt. rewrite Hlt.
  apply bind_rand_Raise, bind_rand_Raise, order_crossover_short.
  assert (winner1 ∈ population) as Hin.
  { unfold tournament_selection in Hw1.
    apply bind_rand_Ok in Hw1 as (candidates & g' & Hs & Hmin).
    apply lift_Ok in Hmin as [[Hin _]%min_by_cost_Ok _].
    unfold random_sample in Hs. case_decide; [|done].
    destruct (sample_loop_total (Z.to_nat tournament_k) population g)
      as (l & g'' & Hl & _ & Hsub); [lia|].
    rewrite Hl in Hs. injection Hs as -> _.
    by eapply elem_of_submseteq. }
  apply (proj1 (Forall_forall _ _) Hshort) in Hin. lia.
Qed.

End CrossoverBranch.

(** C10. On a first parent of length 0 or 1 [order_crossover] raises
    [ValueError], whatever the second parent and the draws: no two cut
    points can be sampled. Hence a pass of the breeding loop over a
    population whose chromosomes have at most one gene raises as soon as
    its crossover branch is taken, and [genetic_algorithm] fails on the
    instance of a single job with a crossover rate of 9/10 when the draw
    takes that branch, while it returns when the draw avoids it. *)
Theorem order_crossover_needs_two_genes :
  (∀ parent1 parent2 g,
     length parent1 ≤ 1 →
     order_crossover parent1 parent2 g = Raise ValueError) ∧
  (∀ n_machines processing_times ready_times setup_matrix crossover_rate
     mutation_rate tournament_k population new_population need g,
     Forall (λ ind, length (chromosome ind) ≤ 1) population →
     crossover_taken crossover_rate tournament_k population g →
     breed n_machines processing_times ready_times setup_matrix
           crossover_rate mutation_rate tournament_k population
           new_population (S need) g
     = Raise ValueError) ∧
  genetic_algorithm 1 1 [1%Q] [0%Q] [[None]] 2 1 (9 # 10) (2 # 100) 1
    [0; 0; 0]%Z = Raise ValueError ∧
  genetic_algorithm 1 1 [1%Q] [0%Q] [[None]] 2 1 (9 # 10) (2 # 100) 1
    [0; 0; 2 ^ 53 - 1]%Z
  = Ok (GaResult (Individual [0] 1%Q) [1%Q; 1%Q], []).
Proof.
  split; [|split; [|split]].
  - intros parent1 parent2 g Hlen. apply order_crossover_short. lia.
  - intros. by apply breed_short_crossover.
  - vm_compute. reflexivity.
  - vm_compute. reflexivity.
Qed.

(** ** Concrete runs of the theorems above *)

(** A crossover and a mutation on three jobs. *)
Lemma permutation_invariant_witness :
  is_ordering 3 [0; 1; 2] ∧ is_ordering 3 [2; 1; 0] ∧
  is_ordering 3 [1; 2; 0] ∧
  (∀ child g',
     order_crossover [0; 1; 2] [2; 1; 0] [1; 2]%Z = Ok (child, g') →
     ∃ order, child = Some <$> order ∧ is_ordering 3 order) ∧
  (2 ≤ 3 →
   ∃ child g', order_crossover [0; 1; 2] [2; 1; 0] [1; 2]%Z = Ok (child, g')) ∧
  (∃ mutated g',
     mutate_swap [1; 2; 0] (1 # 2) [1; 2]%Z = Ok (mutated, g') ∧
     is_ordering 3 mutated).
Proof.
  assert (is_ordering 3 [0; 1; 2]) as H1 by (unfold is_ordering; compute_done).
  assert (is_ordering 3 [2; 1; 0]) as H2 by (unfold is_ordering; compute_done).
  assert (is_ordering 3 [1; 2; 0]) as H3 by (unfold is_ordering; compute_done).
  split; [exact H1|]. split; [exact H2|]. split; [exact H3|].
  exact (permutation_invariant 3 [0; 1; 2] [2; 1; 0] [1; 2; 0] (1 # 2)
           [1; 2]%Z H1 H2 H3).
Defined.

(** Two generations on the uneven instance: the history falls from 102
    to 3 and stays there. *)
Lemma history_non_increasing_witness :
  genetic_algorithm 2 1 unit_processing unit_ready uneven_setup
    2 2 (9 # 10) (2 # 100) 1
    (improving_draws ++
       [0; 0; 2 ^ 53 - 1; 2 ^ 52; 2 ^ 52; 2 ^ 52; 2 ^ 52])%Z
  = Ok (GaResult (Individual [1; 0] 3%Q) [102%Q; 3%Q; 3%Q], []) ∧
  non_increasing [102%Q; 3%Q; 3%Q].
Proof.
  assert (genetic_algorithm 2 1 unit_processing unit_ready uneven_setup
            2 2 (9 # 10) (2 # 100) 1
            (improving_draws ++
               [0; 0; 2 ^ 53 - 1; 2 ^ 52; 2 ^ 52; 2 ^ 52; 2 ^ 52])%Z
          = Ok (GaResult (Individual [1; 0] 3%Q) [102%Q; 3%Q; 3%Q], []))
    as Hrun.
  { vm_compute. reflexivity. }
  split; [exact Hrun|].
  exact (history_non_increasing _ _ _ _ _ _ _ _ _ _ _ _ _ Hrun).
Defined.

(** The crossover of the only ordering of one job. *)
Lemma order_crossover_needs_two_genes_witness :
  length [0] ≤ 1 ∧ order_crossover [0] [0] [] = Raise ValueError.
Proof.
  split; [simpl; lia|].
  apply (proj1 order_crossover_needs_two_genes [0] [0] []). simpl. lia.
Defined.

(** * Further properties *)

(** ** The decoder: what the schedule holds *)

Lemma for_each_prefix_inv {A S} (P : list A → S → Prop)
    (body : S → A → result S) xs :
  (∀ seen x st st', P seen st → body st x = Ok st' → P (seen ++ [x]) st') →
  ∀ seen st st',
    P seen st → for_each body xs st = Ok st' → P (seen ++ xs) st'.
Proof.
  intros Hbody. induction xs as [|x xs IH]; intros seen st st' HP H.
  - injection H as <-. by rewrite app_nil_r.
  - rewrite for_each_cons in H. apply bind_Ok in H as (st1 & H1 & H).
    replace (seen ++ x :: xs) with ((seen ++ [x]) ++ xs)
      by by rewrite <-(assoc_L (++)).
    eapply IH; [|done]. eauto.
Qed.

Lemma join_replicate_nil {A} n : mjoin (replicate n (@nil A)) = [].
Proof. induction n as [|n IH]; [done|]. simpl. done. Qed.

Lemma join_insert_snoc {A} (ls : list (list A)) i l x :
  ls !! i = Some l →
  mjoin (<[i:=l ++ [x]]> ls) ≡ₚ mjoin ls ++ [x].
Proof.
  intros Hl. rewrite insert_take_drop by by eapply lookup_lt_Some.
  transitivity (mjoin (take i ls ++ l :: drop (S i) ls) ++ [x]);
    [|by rewrite take_drop_middle].
  rewrite !join_app. simpl.
  rewrite <-!(assoc_L (++)). apply Permutation_app_head.
  apply Permutation_app_head. simpl. apply Permutation_cons_append.
Qed.

Lemma max_list_fold xs : ∀ x,
  foldl pymax x xs ∈ x :: xs ∧
  ∀ y, y ∈ x :: xs → (y <= foldl pymax x xs)%Q.
Proof.
  induction xs as [|z xs IH]; intros x; simpl.
  - split; [left|]. intros y ->%list_elem_of_singleton. apply Qle_refl.
  - destruct (IH (pymax x z)) as [Hin Hle]. split.
    + apply elem_of_cons in Hin as [->|Hin]; [|right; by right].
      unfold pymax. destruct (Qltb x z); [right|]; left.
    + intros y [->|[->|Hy]%elem_of_cons]%elem_of_cons.
      * eapply Qle_trans; [apply pymax_ge_l|apply Hle; left].
      * eapply Qle_trans; [apply pymax_ge_r|apply Hle; left].
      * apply Hle. by right.
Qed.

Lemma max_list_Ok xs m :
  max_list xs = Ok m → m ∈ xs ∧ ∀ y, y ∈ xs → (y <= m)%Q.
Proof.
  destruct xs as [|x xs]; [done|]. simpl. intros [= <-].
  apply max_list_fold.
Qed.

(** A duplicate-free list of [n] numbers below [n] holds each of them. *)
Lemma NoDup_bounded_full (l : list nat) :
  NoDup l → (∀ x, x ∈ l → x < length l) → l ≡ₚ seq 0 (length l).
Proof.
  intros Hnd Hbound. apply submseteq_length_Permutation.
  - apply NoDup_submseteq; [done|]. intros x Hx%Hbound.
    apply elem_of_seq. lia.
  - by rewrite length_seq.
Qed.

Section DecoderSchedule.
Variable n_machines : nat.
Variable processing_times : list Q.
Variable ready_times : list Q.
Variable setup_matrix : list (list (option Q)).

Abbreviation place_job_d :=
  (place_job n_machines processing_times ready_times setup_matrix).
Abbreviation decode_loop_d :=
  (decode_loop n_machines processing_times ready_times setup_matrix).
Abbreviation placed_inv := (placed_inv n_machines).
Abbreviation decode_schedule_d :=
  (decode_schedule n_machines processing_times ready_times setup_matrix).

(** What placing a job does to the state. *)
Lemma place_job_effect st job st' :
  place_job_d st job = Ok st' →
  ∃ bm bs bc row,
    candidate processing_times ready_times setup_matrix st job bm
      = Ok (bs, bc) ∧
    bm < length (machine_time st) ∧
    job < length (completion_times st) ∧
    schedule st !! bm = Some row ∧
    machine_time st' = <[bm:=bc]> (machine_time st) ∧
    completion_times st' = <[job:=bc]> (completion_times st) ∧
    schedule st' = <[bm:=row ++ [(job, bs, bc)]]> (schedule st).
Proof.
  intros (bm & bs & bc & (_ & Hcand & _) & Hcommit)%place_job_Ok.
  apply commit_Ok in Hcommit as (row & Hmt & _ & Hct & Hrow & ->).
  by exists bm, bs, bc, row.
Qed.

Lemma placed_inv_init order :
  placed_inv (length order) [] (init_state n_machines order).
Proof.
  unfold placed_inv, scheduled_jobs. simpl. rewrite join_replicate_nil.
  split; [done|]. split; [by rewrite length_replicate|].
  split; [by rewrite length_replicate|].
  split; [by intros job ?%elem_of_nil|].
  by intros _ t ?%elem_of_nil.
Qed.

Lemma placed_inv_step len seen job st st' :
  placed_inv len seen st → place_job_d st job = Ok st' →
  placed_inv len (seen ++ [job]) st'.
Proof.
  intros (Hjobs & Hrows & Hlen & Hbound & Hends) Hplace.
  apply place_job_effect in Hplace
    as (bm & bs & bc & row & _ & _ & Hjob & Hrow & _ & Hct & Hsch).
  assert (mjoin (schedule st') ≡ₚ mjoin (schedule st) ++ [(job, bs, bc)])
    as Hjoin by (rewrite Hsch; by apply join_insert_snoc).
  split; [|split; [|split; [|split]]].
  - unfold scheduled_jobs. rewrite Hjoin, fmap_app. simpl.
    by apply Permutation_app_tail.
  - by rewrite Hsch, length_insert.
  - by rewrite Hct, length_insert.
  - intros j [Hj| ->%list_elem_of_singleton]%elem_of_app; [auto|lia].
  - intros [Hnd [Hfresh _]]%NoDup_app t Ht. rewrite Hjoin in Ht. rewrite Hct.
    apply elem_of_app in Ht as [Ht| ->%list_elem_of_singleton].
    + assert (entry_job t ∈ seen) as Hseen.
      { rewrite <-Hjobs. unfold scheduled_jobs.
        apply list_elem_of_fmap. by exists t. }
      rewrite list_lookup_insert_ne; [by apply Hends|].
      intros Heq. apply (Hfresh _ Hseen). rewrite Heq. left.
    + simpl. by rewrite list_lookup_insert_eq.
Qed.

Lemma decode_loop_placed order st :
  decode_loop_d order (init_state n_machines order) = Ok st →
  placed_inv (length order) order st.
Proof.
  intros H.
  apply (for_each_prefix_inv (placed_inv (length order)) place_job_d order
           (λ seen x st0 st1, placed_inv_step _ seen x st0 st1)
           [] _ _ (placed_inv_init order) H).
Qed.

Lemma decode_schedule_Ok order makespan sched :
  decode_schedule_d order = Ok (makespan, sched) →
  ∃ st,
    decode_loop_d order (init_state n_machines order) = Ok st ∧
    max_list (completion_times st) = Ok makespan ∧ sched = schedule st.
Proof.
  unfold decode_schedule. intros H.
  apply bind_Ok in H as (st & Hloop & H).
  apply bind_Ok in H as (ms & Hmax & H). injection H as <- <-.
  by exists st.
Qed.

Lemma decode_schedule_jobs order makespan sched :
  decode_schedule_d order = Ok (makespan, sched) →
  length sched = n_machines ∧ scheduled_jobs sched ≡ₚ order.
Proof.
  intros (st & Hloop%decode_loop_placed & _ & ->)%decode_schedule_Ok.
  by destruct Hloop as (? & ? & _).
Qed.

(** X1. The schedule has one row per machine, and its entries hold the
    jobs of the ordering, each as many times as the ordering does: no job
    is dropped and none is added, whatever the list decoded. *)
Theorem decode_schedule_places_every_job order makespan sched :
  decode_schedule_d order = Ok (makespan, sched) →
  length sched = n_machines ∧ scheduled_jobs sched ≡ₚ order.
Proof. apply decode_schedule_jobs. Qed.

Lemma decode_schedule_ends order makespan sched :
  NoDup order →
  decode_schedule_d order = Ok (makespan, sched) →
  (∀ t, t ∈ mjoin sched → (entry_end t <= makespan)%Q) ∧
  (∃ t, t ∈ mjoin sched ∧ entry_end t = makespan).
Proof.
  intros Hnd (st & Hloop%decode_loop_placed & Hmax & ->)%decode_schedule_Ok.
  destruct Hloop as (Hjobs & _ & Hlen & Hbound & Hends).
  specialize (Hends Hnd).
  apply max_list_Ok in Hmax as [Hin Hle]. split.
  - intros t Ht. apply Hle. eapply list_elem_of_lookup_2. by apply Hends.
  - apply list_elem_of_lookup in Hin as [job Hjob].
    assert (job ∈ order) as Hin.
    { rewrite (NoDup_bounded_full order Hnd Hbound). apply elem_of_seq.
      apply lookup_lt_Some in Hjob. lia. }
    rewrite <-Hjobs in Hin. unfold scheduled_jobs in Hin.
    apply list_elem_of_fmap in Hin as (t & -> & Ht).
    exists t. split; [done|]. apply Hends in Ht.
    rewrite Hjob in Ht. by injection Ht.
Qed.

(** X2. For an ordering without repeated job, the makespan returned is
    the largest end of the schedule: no entry ends after it and one entry
    ends at it. *)
Theorem makespan_is_last_end order makespan sched :
  NoDup order →
  decode_schedule_d order = Ok (makespan, sched) →
  (∀ t, t ∈ mjoin sched → (entry_end t <= makespan)%Q) ∧
  (∃ t, t ∈ mjoin sched ∧ entry_end t = makespan).
Proof. apply decode_schedule_ends. Qed.

End DecoderSchedule.

(** ** The decoder: the lists it accepts *)

Section DecoderDomain.
Variable n_jobs : nat.
Variable n_machines : nat.
Variable processing_times : list Q.
Variable ready_times : list Q.
Variable setup_matrix : list (list (option Q)).

Lemma decode_loop_in_range order st :
  length ready_times = n_jobs →
  decode_loop n_machines processing_times ready_times setup_matrix order
    (init_state n_machines order) = Ok st →
  Forall (λ job, in_range n_jobs order job ∧ 1 ≤ n_machines) order.
Proof.
  intros Hready H.
  pose (P := λ (seen : list nat) (st : decoder_state),
          length (machine_time st) = n_machines ∧
          length (completion_times st) = length order ∧
          Forall (λ job, in_range n_jobs order job ∧ 1 ≤ n_machines) seen).
  assert (P ([] ++ order) st) as (_ & _ & Hall); [|done].
  apply (for_each_prefix_inv P
           (place_job n_machines processing_times ready_times setup_matrix)
           order) with (st := init_state n_machines order); [| |done].
  - intros seen job st0 st1 (Hmt & Hct & Hseen) Hplace.
    apply place_job_effect in Hplace
      as (bm & bs & bc & row & Hcand & Hbm & Hjob & _ & Hmt' & Hct' & _).
    apply candidate_Ok in Hcand
      as (t & prev & r & p & _ & _ & Hr%lookup_lt_Some & _).
    split; [by rewrite Hmt', length_insert|].
    split; [by rewrite Hct', length_insert|].
    apply Forall_app. split; [done|]. constructor; [|done].
    unfold in_range. lia.
  - unfold P. simpl. by rewrite !length_replicate.
Qed.

(** X5. The decoder returns only when there is a machine and the list is
    a non-empty list of jobs that are below the number of ready times
    and below the length of the list; it does not ask for a permutation.
    Without machine, on the empty list or on a job beyond one of these
    bounds it raises. *)
Theorem decode_schedule_returns_only_if order makespan sched :
  length ready_times = n_jobs →
  decode_schedule n_machines processing_times ready_times setup_matrix order
    = Ok (makespan, sched) →
  1 ≤ n_machines ∧ order ≠ [] ∧ Forall (in_range n_jobs order) order.
Proof.
  intros Hr H. destruct order as [|job order]; [done|].
  apply decode_schedule_Ok in H as (st & Hloop & _ & _).
  apply (decode_loop_in_range _ _ Hr) in Hloop.
  split; [|split; [done|]].
  - by apply Forall_cons in Hloop as [[_ ?] _].
  - eapply Forall_impl; [exact Hloop|]. by intros j [? _].
Qed.

End DecoderDomain.

(** ** The genetic algorithm: what a returned result holds *)

Lemma random_shuffle_Ok {A} (x x' : list A) g g' :
  random_shuffle x g = Ok (x', g') → x' ≡ₚ x.
Proof.
  intros H. destruct (random_shuffle_total x g) as (x1 & g1 & H1 & Hperm).
  rewrite H1 in H. by injection H as <- _.
Qed.

Lemma mutate_swap_Ok {A} (c c' : list A) rate g g' :
  mutate_swap c rate g = Ok (c', g') → c' ≡ₚ c.
Proof.
  intros H. destruct (mutate_swap_total c rate g) as (c1 & g1 & H1 & Hperm).
  rewrite H1 in H. by injection H as <- _.
Qed.

Lemma random_sample_Ok {A} (population l : list A) k g g' :
  random_sample population k g = Ok (l, g') →
  length l = Z.to_nat k ∧ l ⊆+ population ∧
  (0 ≤ k ≤ Z.of_nat (length population))%Z.
Proof.
  intros H.
  destruct (decide (0 ≤ k ≤ Z.of_nat (length population))%Z) as [Hk|Hk].
  - destruct (random_sample_total population k g Hk)
      as (l1 & g1 & H1 & Hlen & Hsub).
    rewrite H1 in H. by injection H as <- _.
  - rewrite random_sample_out_of_range in H by lia. done.
Qed.

Lemma tournament_selection_Ok population k g winner g' :
  tournament_selection population k g = Ok (winner, g') →
  winner ∈ population.
Proof.
  unfold tournament_selection. intros H.
  apply bind_rand_Ok in H as (candidates & g1 & Hs & Hmin).
  apply lift_Ok in Hmin as [[Hin _]%min_by_cost_Ok _].
  apply random_sample_Ok in Hs as (_ & Hsub & _).
  by eapply elem_of_submseteq.
Qed.

Lemma order_crossover_Ok n parent1 parent2 g child g' :
  is_ordering n parent1 → is_ordering n parent2 →
  order_crossover parent1 parent2 g = Ok (child, g') →
  ∃ order, child = Some <$> order ∧ is_ordering n order.
Proof.
  intros Hp1 Hp2 H. destruct (decide (2 ≤ n)) as [Hn|Hn].
  - destruct (order_crossover_total n parent1 parent2 g Hn Hp1 Hp2)
      as (order & g1 & H1 & Horder).
    rewrite H1 in H. injection H as <- _. by exists order.
  - rewrite order_crossover_short in H; [done|].
    rewrite Hp1, length_seq. lia.
Qed.

Lemma repeat_rand_Ok {A} (P : A → Prop) (m : Rand A) :
  (∀ g x g', m g = Ok (x, g') → P x) →
  ∀ n g xs g', repeat_rand m n g = Ok (xs, g') →
               Forall P xs ∧ length xs = n.
Proof.
  intros Hm. induction n as [|n IH]; intros g xs g' H; simpl in H.
  - by injection H as <- _.
  - apply bind_rand_Ok in H as (x & g1 & Hx & H).
    apply bind_rand_Ok in H as (xs' & g2 & Hxs & H).
    injection H as <- _. apply IH in Hxs as [Hall Hlen].
    split; [constructor; eauto|simpl; lia].
Qed.

Section GaResultProperties.
Variable n_jobs : nat.
Variable n_machines : nat.
Variable processing_times : list Q.
Variable ready_times : list Q.
Variable setup_matrix : list (list (option Q)).
Variable pop_size : Z.
Variable generations : Z.
Variable crossover_rate : Q.
Variable mutation_rate : Q.
Variable tournament_k : Z.

Abbreviation sound :=
  (sound_individual n_jobs n_machines processing_times ready_times
                    setup_matrix).
Abbreviation breed_r :=
  (breed n_machines processing_times ready_times setup_matrix crossover_rate
         mutation_rate tournament_k).
Abbreviation generation_r :=
  (generation n_machines processing_times ready_times setup_matrix pop_size
              crossover_rate mutation_rate tournament_k).
Abbreviation generations_loop_r :=
  (generations_loop n_machines processing_times ready_times setup_matrix
                    pop_size crossover_rate mutation_rate tournament_k).
Abbreviation genetic_algorithm_r :=
  (genetic_algorithm n_jobs n_machines processing_times ready_times
                     setup_matrix pop_size generations crossover_rate
                     mutation_rate tournament_k).

Lemma create_individual_Ok g ind g' :
  create_individual n_jobs n_machines processing_times ready_times
    setup_matrix g = Ok (ind, g') →
  sound ind.
Proof.
  unfold create_individual. intros H.
  apply bind_rand_Ok in H as (c & g1 & Hc%random_shuffle_Ok & H).
  apply bind_rand_Ok in H as (cost & g2 & [Hcost ->]%lift_Ok & H).
  injection H as <- _. by split.
Qed.

Lemma evaluate_child_Ok order ind :
  is_ordering n_jobs order →
  evaluate_child n_machines processing_times ready_times setup_matrix
    (Some <$> order) = Ok ind →
  sound ind.
Proof.
  unfold evaluate_child. rewrite genes_fmap. simpl. intros Horder H.
  apply bind_Ok in H as (cost & Hcost & H). injection H as <-. by split.
Qed.

Lemma mutated_child (mutated : list (option nat)) order g g' :
  is_ordering n_jobs order →
  mutate_swap (Some <$> order) mutation_rate g = Ok (mutated, g') →
  ∃ order', mutated = Some <$> order' ∧ is_ordering n_jobs order'.
Proof.
  intros Horder Hperm%mutate_swap_Ok.
  apply Permutation_fmap_Some in Hperm as (order' & -> & Hperm).
  exists order'. split; [done|]. unfold is_ordering. by rewrite Hperm.
Qed.

Lemma breed_pair_Ok population g child1 child2 g' :
  Forall sound population →
  breed_pair crossover_rate mutation_rate tournament_k population g
    = Ok ((child1, child2), g') →
  ∃ order1 order2,
    child1 = Some <$> order1 ∧ is_ordering n_jobs order1 ∧
    child2 = Some <$> order2 ∧ is_ordering n_jobs order2.
Proof.
  unfold breed_pair. intros Hpop H.
  apply bind_rand_Ok in H as (winner1 & g1 & Hw1%tournament_selection_Ok & H).
  apply bind_rand_Ok in H as (winner2 & g2 & Hw2%tournament_selection_Ok & H).
  apply (proj1 (Forall_forall _ _) Hpop) in Hw1 as [Hp1 _].
  apply (proj1 (Forall_forall _ _) Hpop) in Hw2 as [Hp2 _].
  apply bind_rand_Ok in H as (u & g3 & _ & H).
  apply bind_rand_Ok in H as ([crossed1 crossed2] & g4 & Hcross & H).
  assert (∃ o1 o2, crossed1 = Some <$> o1 ∧ is_ordering n_jobs o1 ∧
                   crossed2 = Some <$> o2 ∧ is_ordering n_jobs o2)
    as (o1 & o2 & -> & Ho1 & -> & Ho2).
  { destruct (Qltb u crossover_rate).
    - apply bind_rand_Ok in Hcross as (c1 & g5 & Hc1 & Hcross).
      apply bind_rand_Ok in Hcross as (c2 & g6 & Hc2 & Hcross).
      injection Hcross as <- <- _.
      apply (order_crossover_Ok n_jobs) in Hc1 as (o1 & -> & Ho1); [|done..].
      apply (order_crossover_Ok n_jobs) in Hc2 as (o2 & -> & Ho2); [|done..].
      by exists o1, o2.
    - injection Hcross as <- <- _. by eexists _, _. }
  apply bind_rand_Ok in H as (m1 & g5 & Hm1 & H).
  apply bind_rand_Ok in H as (m2 & g6 & Hm2 & H).
  injection H as <- <- _.
  apply (mutated_child m1) in Hm1 as (order1 & -> & Ho1'); [|done..].
  apply (mutated_child m2) in Hm2 as (order2 & -> & Ho2'); [|done..].
  by exists order1, order2.
Qed.

Lemma breed_Ok population need : ∀ new_population g new_population' g',
  Forall sound population → Forall sound new_population →
  breed_r population new_population need g = Ok (new_population', g') →
  Forall sound new_population' ∧
  length new_population' = length new_population + need.
Proof.
  induction need as [need IH] using lt_wf_ind.
  intros new_population g new_population' g' Hpop Hnew H.
  destruct need as [|need]; simpl in H.
  { injection H as <- _. split; [done|lia]. }
  apply bind_rand_Ok in H as ([child1 child2] & g1 & Hpair & H).
  apply (breed_pair_Ok _ _ _ _ _ Hpop) in Hpair
    as (order1 & order2 & -> & Ho1 & -> & Ho2).
  apply bind_rand_Ok in H as (ind1 & g2 & [Hind1 ->]%lift_Ok & H).
  apply (evaluate_child_Ok _ _ Ho1) in Hind1.
  assert (Forall sound (new_population ++ [ind1])) as Hnew1.
  { apply Forall_app. split; [done|]. by constructor. }
  destruct need as [|need].
  { injection H as <- _. split; [done|]. list_len. lia. }
  apply bind_rand_Ok in H as (ind2 & g3 & [Hind2 ->]%lift_Ok & H).
  apply (evaluate_child_Ok _ _ Ho2) in Hind2.
  apply IH in H as [Hall Hlen]; [|lia|done|].
  - split; [done|]. revert Hlen. list_len. lia.
  - apply Forall_app. split; [done|]. by constructor.
Qed.

Lemma generation_Ok st g st' g' :
  Forall sound (population st) → sound (running_best st) →
  generation_r st g = Ok (st', g') →
  Forall sound (population st') ∧ sound (running_best st') ∧
  length (best_history st') = S (length (best_history st)).
Proof.
  unfold generation. intros Hpop Hbest H.
  apply bind_rand_Ok in H as (elite & g1 & [Helite ->]%lift_Ok & H).
  apply bind_rand_Ok in H as (new_population & g2 & Hbreed & H).
  apply bind_rand_Ok in H as (best_gen & g3 & _ & H).
  injection H as <- _. simpl.
  apply min_by_cost_Ok in Helite as [Helite _].
  apply (proj1 (Forall_forall _ _) Hpop) in Helite.
  apply breed_Ok in Hbreed as [Hnew _]; [|done|by constructor].
  split; [done|]. split; [|list_len; lia].
  by destruct (Qltb (cost elite) (cost (running_best st))).
Qed.

Lemma generations_loop_Ok gens : ∀ st g st' g',
  Forall sound (population st) → sound (running_best st) →
  generations_loop_r gens st g = Ok (st', g') →
  sound (running_best st') ∧
  length (best_history st') = gens + length (best_history st).
Proof.
  induction gens as [|gens IH]; intros st g st' g' Hpop Hbest H; simpl in H.
  - by injection H as <- _.
  - apply bind_rand_Ok in H as (st1 & g1 & Hgen & H).
    apply generation_Ok in Hgen as (Hpop1 & Hbest1 & Hlen1); [|done..].
    apply IH in H as [Hbest' Hlen']; [|done..]. split; [done|lia].
Qed.

(** The steps of a run that returns. *)
Lemma genetic_algorithm_Ok g res g' :
  genetic_algorithm_r g = Ok (res, g') →
  ∃ population g1 best0 st,
    repeat_rand (create_individual n_jobs n_machines processing_times
                   ready_times setup_matrix) (Z.to_nat pop_size) g
      = Ok (population, g1) ∧
    min_by_cost population = Ok best0 ∧
    generations_loop_r (Z.to_nat generations)
      (GaState population best0 [cost best0]) g1 = Ok (st, g') ∧
    res = GaResult (running_best st) (best_history st).
Proof.
  unfold genetic_algorithm. intros H.
  apply bind_rand_Ok in H as (population & g1 & Hinit & H).
  apply bind_rand_Ok in H as (best0 & g2 & [Hbest ->]%lift_Ok & H).
  apply bind_rand_Ok in H as (st & g3 & Hloop & H).
  injection H as <- <-. by exists population, g1, best0, st.
Qed.

Lemma genetic_algorithm_best_sound g res g' :
  genetic_algorithm_r g = Ok (res, g') → sound (best res).
Proof.
  intros (population & g1 & best0 & st & Hinit & Hmin & Hloop & ->)
         %genetic_algorithm_Ok.
  apply (repeat_rand_Ok sound) in Hinit as [Hpop _];
    [|apply create_individual_Ok].
  apply min_by_cost_Ok in Hmin as [Hmin _].
  apply (proj1 (Forall_forall _ _) Hpop) in Hmin.
  by apply generations_loop_Ok in Hloop as [Hbest _].
Qed.

(** X6. The individual returned by a run is an ordering of the jobs
    paired with its own makespan: decoding its chromosome again gives
    its cost. *)
Theorem best_is_decoded_ordering g res g' :
  genetic_algorithm_r g = Ok (res, g') →
  is_ordering n_jobs (chromosome (best res)) ∧
  evaluate n_machines processing_times ready_times setup_matrix
    (chromosome (best res)) = Ok (cost (best res)).
Proof. apply genetic_algorithm_best_sound. Qed.

Lemma genetic_algorithm_history_length g res g' :
  genetic_algorithm_r g = Ok (res, g') →
  length (history res) = S (Z.to_nat generations).
Proof.
  intros (population & g1 & best0 & st & Hinit & Hmin & Hloop & ->)
         %genetic_algorithm_Ok.
  apply (repeat_rand_Ok sound) in Hinit as [Hpop _];
    [|apply create_individual_Ok].
  apply min_by_cost_Ok in Hmin as [Hmin _].
  apply (proj1 (Forall_forall _ _) Hpop) in Hmin.
  apply generations_loop_Ok in Hloop as [_ Hlen]; [|done..].
  simpl in *. lia.
Qed.

(** X7. The history of a run has one entry for the initial population
    and one per generation. *)
Theorem history_length g res g' :
  genetic_algorithm n_jobs n_machines processing_times ready_times setup_matrix
    pop_size generations crossover_rate mutation_rate tournament_k g
    = Ok (res, g') →
  length (history res) = S (Z.to_nat generations).
Proof. apply genetic_algorithm_history_length. Qed.

Lemma non_increasing_le h : ∀ j i a b,
  non_increasing h → i ≤ j → h !! i = Some a → h !! j = Some b →
  (b <= a)%Q.
Proof.
  induction j as [|j IH]; intros i a b Hh Hij Ha Hb.
  - assert (i = 0) as -> by lia. rewrite Ha in Hb. injection Hb as <-.
    apply Qle_refl.
  - destruct (decide (i = S j)) as [->|Hne].
    + rewrite Ha in Hb. injection Hb as <-. apply Qle_refl.
    + destruct (lookup_lt_is_Some_2 h j) as [c Hc].
      { apply lookup_lt_Some in Hb. lia. }
      eapply Qle_trans; [apply (Hh j c b Hc Hb)|].
      apply (IH i a c); [done|lia|done..].
Qed.

Lemma genetic_algorithm_best_le g res g' i c :
  genetic_algorithm_r g = Ok (res, g') →
  history res !! i = Some c →
  i = 0 ∨ S i < length (history res) →
  (cost (best res) <= c)%Q.
Proof.
  intros (population & g1 & best0 & st & Hinit & Hmin & Hloop & ->)
         %genetic_algorithm_Ok Hi Hrange. simpl in *.
  assert (history_inv (GaState population best0 [cost best0])) as Hinv.
  { by exists best0. }
  destruct (Z.to_nat generations) as [|gens] eqn:E.
  - injection Hloop as <- _. simpl in *.
    destruct i as [|i]; [|by destruct Hrange; [|simpl in *; lia]].
    injection Hi as <-. apply Qle_refl.
  - pose proof (generations_loop_history _ _ _ _ _ _ _ _ _ _ _ _ _ Hloop Hinv)
      as Hmono.
    destruct (generations_loop_best _ _ _ _ _ _ _ _ _ _ _ _ _ Hloop)
      as (h & x & y & Hh & Hbest & Hyx).
    { split; [done|]. exists (cost best0). split; [done|apply Qle_refl]. }
    rewrite Hbest.
    apply (non_increasing_le (best_history st) (length h) i); [| |done|].
    + apply Hmono. by intros [|?] ? ? ? ?.
    + rewrite Hh in Hrange. revert Hrange. list_len. lia.
    + rewrite Hh. rewrite lookup_app_r by lia.
      by replace (length h - length h) with 0 by lia.
Qed.

(** X8. The individual returned costs no more than any entry of the
    history but the last one; in particular it costs no more than the best
    of the initial population, the first entry. *)
Theorem best_no_worse_than_history g res g' i c :
  genetic_algorithm n_jobs n_machines processing_times ready_times setup_matrix
    pop_size generations crossover_rate mutation_rate tournament_k g
    = Ok (res, g') →
  history res !! i = Some c →
  i = 0 ∨ S i < length (history res) →
  (cost (best res) <= c)%Q.
Proof. apply genetic_algorithm_best_le. Qed.

End GaResultProperties.

(** ** The genetic algorithm: a population of one *)

Section SingleIndividual.
Variable n_jobs : nat.
Variable n_machines : nat.
Variable processing_times : list Q.
Variable ready_times : list Q.
Variable setup_matrix : list (list (option Q)).
Variable generations : Z.
Variable crossover_rate : Q.
Variable mutation_rate : Q.
Variable tournament_k : Z.





End SingleIndividual.

(** ** Selection and initialisation *)

(** X10. A tournament whose size is below 1 or above the population size
    raises [ValueError]; otherwise it returns a member of the population,
    and when every individual takes part the winner costs no more than
    any of them. *)
Theorem tournament_selection_winner population k g :
  ((k < 1 ∨ Z.of_nat (length population) < k)%Z →
   tournament_selection population k g = Raise ValueError) ∧
  ((1 ≤ k ≤ Z.of_nat (length population))%Z →
   ∃ winner g',
     tournament_selection population k g = Ok (winner, g') ∧
     winner ∈ population ∧
     (k = Z.of_nat (length population) →
      ∀ ind, ind ∈ population → (cost winner <= cost ind)%Q)).
Proof.
  split.
  - intros Hk. apply tournament_selection_out_of_range. lia.
  - intros Hk. unfold tournament_selection.
    destruct (random_sample_total population k g)
      as (candidates & g' & Hs & Hlen & Hsub); [lia|].
    destruct (min_by_cost_total candidates) as [winner Hw].
    { intros ->. simpl in Hlen. lia. }
    rewrite (bind_rand_step _ _ _ _ _ Hs).
    exists winner, g'. split; [by rewrite Hw|].
    apply min_by_cost_Ok in Hw as [Hin Hle].
    split; [by eapply elem_of_submseteq|].
    intros -> ind Hind. apply Hle.
    rewrite (submseteq_length_Permutation _ _ Hsub); [done|lia].
Qed.

(** X11. Without job [create_individual] raises the [ValueError] of the
    decoder; and the individual it returns, whatever the draws, is an
    ordering of the jobs paired with its makespan. *)
Theorem create_individual_sound n_jobs n_machines processing_times
    ready_times setup_matrix g :
  create_individual 0 n_machines processing_times ready_times setup_matrix g
  = Raise ValueError ∧
  (∀ ind g',
     create_individual n_jobs n_machines processing_times ready_times
       setup_matrix g = Ok (ind, g') →
     sound_individual n_jobs n_machines processing_times ready_times
       setup_matrix ind).
Proof.
  split; [done|]. intros ind g'. by apply create_individual_Ok.
Qed.

(** ** Mutation without mutation *)

Lemma random_random_unit g :
  ∃ u, random_random g = Ok (u, drop 1 g) ∧ (0 <= u)%Q ∧ (u < 1)%Q.
Proof.
  assert (∀ d, 0 <= Qmake (d mod 2 ^ 53) (2 ^ 53) ∧
               Qmake (d mod 2 ^ 53) (2 ^ 53) < 1)%Q as Hunit.
  { intros d. pose proof (Z.mod_pos_bound d (2 ^ 53) eq_refl) as Hd.
    unfold Qle, Qlt. simpl. lia. }
  destruct g as [|d g]; eexists; (split; [done|apply Hunit]).
Qed.

Lemma mutate_step_rate_zero {A} size rate (c : list A) i g :
  (rate <= 0)%Q → mutate_step size rate c i g = Ok (c, drop 1 g).
Proof.
  intros Hrate. unfold mutate_step.
  destruct (random_random_unit g) as (u & Hu & Hpos & _).
  rewrite (bind_rand_step _ _ _ _ _ Hu).
  assert (Qltb u rate = false) as ->; [|done].
  apply Qltb_false. by eapply Qle_trans.
Qed.

Lemma mutate_loop_rate_zero {A} size rate (c : list A) xs : ∀ g,
  (rate <= 0)%Q →
  for_each_rand (mutate_step size rate) xs c g = Ok (c, drop (length xs) g).
Proof.
  induction xs as [|x xs IH]; intros g Hrate; [done|].
  cbn [for_each_rand].
  rewrite (bind_rand_step _ _ _ _ _
             (mutate_step_rate_zero size rate c x g Hrate)).
  rewrite IH, drop_drop by done. done.
Qed.

(** X12. With a mutation rate of 0 or less no position is ever
    exchanged: [mutate_swap] returns the chromosome as it is, after one
    draw per position. *)
Theorem mutate_swap_rate_zero {A} (c : list A) rate g :
  (rate <= 0)%Q → mutate_swap c rate g = Ok (c, drop (length c) g).
Proof.
  intros Hrate. unfold mutate_swap.
  rewrite mutate_loop_rate_zero by done. by rewrite length_seq.
Qed.

(** ** Order crossover: the slice of the first parent *)

(** The slot the fill writes next is free when a gene is still missing. *)
Lemma fill_slot_free n child pos gene :
  fill_inv n child pos → gene < n → Some gene ∉ child →
  child !! (if decide (n ≤ pos) then 0 else pos) = Some None.
Proof.
  intros (front & ff & back & fb & -> & Hlen & Hnd & Hbound & Hpos) Hgene Hin.
  rewrite elem_of_fill_shape in Hin.
  pose proof (NoDup_bounded_length n gene _ Hnd Hbound Hgene Hin) as Hshort.
  revert Hlen Hshort. list_len. intros Hlen Hshort.
  destruct Hpos as [[-> Hpos]|[-> ->]]; simpl in Hlen, Hshort.
  - destruct fb as [|fb].
    + destruct ff as [|ff]; [lia|]. by rewrite decide_True by lia.
    + rewrite decide_False by lia. simpl.
      rewrite (assoc_L (++)), lookup_app_r by (list_len; lia).
      replace (pos - length (replicate ff None ++ (Some <$> back))) with 0
        by (list_len; lia).
      done.
  - destruct ff as [|ff]; [lia|]. rewrite decide_False by lia.
    rewrite lookup_app_r by (list_len; lia).
    by replace (length front - length (Some <$> front)) with 0
      by (list_len; lia).
Qed.

Lemma fill_step_keeps n child pos gene child' pos' i x :
  fill_inv n child pos → gene < n →
  fill_step n (child, pos) gene = Ok (child', pos') →
  child !! i = Some (Some x) → child' !! i = Some (Some x).
Proof.
  intros Hinv Hgene H Hi. unfold fill_step in H.
  case_decide as Hin; [by injection H as <- _|].
  pose proof (fill_slot_free n child pos gene Hinv Hgene Hin) as Hfree.
  apply bind_Ok in H as (child1 & [_ ->]%setitem_Ok & H).
  injection H as <- _.
  rewrite list_lookup_insert_ne; [done|]. intros Heq.
  rewrite Heq, Hi in Hfree. done.
Qed.

Lemma fill_loop_keeps n genes_in : ∀ child pos child' pos' i x,
  fill_inv n child pos → Forall (λ g, g < n) genes_in →
  for_each (fill_step n) genes_in (child, pos) = Ok (child', pos') →
  child !! i = Some (Some x) → child' !! i = Some (Some x).
Proof.
  induction genes_in as [|gene rest IH];
    intros child pos child' pos' i x Hinv Hall H Hi.
  - by injection H as <- _.
  - apply Forall_cons in Hall as [Hgene Hall]. rewrite for_each_cons in H.
    destruct (fill_step_total n child pos gene Hinv Hgene)
      as (child1 & pos1 & Hstep & Hinv1 & _).
    rewrite Hstep in H. simpl in H.
    eapply IH; [exact Hinv1|done|exact H|].
    exact (fill_step_keeps n child pos gene child1 pos1 i x
             Hinv Hgene Hstep Hi).
Qed.

(** X13. The child of two orderings keeps a slice of the first parent in
    place: there are cut points [a < b] below the number of jobs such
    that the child holds, at every position from [a] up to [b - 1], the
    gene the first parent holds there. *)
Theorem order_crossover_keeps_slice n parent1 parent2 g child g' :
  is_ordering n parent1 → is_ordering n parent2 →
  order_crossover parent1 parent2 g = Ok (child, g') →
  ∃ a b, a < b ∧ b < n ∧
    ∀ i, a ≤ i < b → ∃ x, parent1 !! i = Some x ∧ child !! i = Some (Some x).
Proof.
  intros Hp1 Hp2 H.
  assert (length parent1 = n) as Hlen by by rewrite Hp1, length_seq.
  destruct (decide (2 ≤ n)) as [Hn|Hn]; cycle 1.
  { rewrite order_crossover_short in H; [done|lia]. }
  unfold order_crossover in H. rewrite Hlen in H.
  destruct (sample_cuts n g Hn) as (c1 & c2 & g1 & Hs & Hne & Hc1 & Hc2).
  rewrite (bind_rand_step _ _ _ _ _ Hs) in H.
  apply bind_rand_Ok in H as ([child1 pos1] & g2 & [Hloop ->]%lift_Ok & H).
  injection H as <- _.
  exists (c1 `min` c2), (c1 `max` c2). split; [lia|]. split; [lia|].
  intros i Hi.
  destruct (lookup_lt_is_Some_2 parent1 i) as [x Hx]; [lia|].
  exists x. split; [done|].
  eapply fill_loop_keeps; [|..|exact Hloop|].
  - apply fill_inv_init; [done|lia..].
  - apply Forall_forall. intros gene Hgene.
    rewrite Permutation_app_comm, take_drop, Hp2 in Hgene.
    apply elem_of_seq in Hgene. lia.
  - rewrite lookup_app_r by (list_len; lia).
    rewrite lookup_app_l by (unfold slice; list_len; lia).
    rewrite list_lookup_fmap. unfold slice.
    rewrite lookup_take_lt by (list_len; lia).
    rewrite lookup_drop.
    replace (c1 `min` c2 +
             (i - length (take (c1 `min` c2) (replicate n (@None nat)))))
      with i by (list_len; lia).
    by rewrite Hx.
Qed.

(** ** The lower bound estimator: what it returns and when *)

Lemma min_list_fold xs : ∀ x,
  let m := foldl (λ m y, if Qltb y m then y else m) x xs in
  m ∈ x :: xs ∧ ∀ y, y ∈ x :: xs → (m <= y)%Q.
Proof.
  induction xs as [|z xs IH]; intros x; simpl.
  - split; [left|]. intros y ->%list_elem_of_singleton. apply Qle_refl.
  - destruct (Qltb z x) eqn:E.
    + destruct (IH z) as [Hin Hle]. split; [by right|].
      intros y [->|Hy]%elem_of_cons; [|by apply Hle].
      apply Qltb_true in E.
      eapply Qle_trans; [apply Hle; left|by apply Qlt_le_weak].
    + destruct (IH x) as [Hin Hle]. split.
      * apply elem_of_cons in Hin as [->|Hin]; [left|right; by right].
      * intros y [->|[->|Hy]%elem_of_cons]%elem_of_cons.
        -- apply Hle. left.
        -- apply Qltb_false in E. eapply Qle_trans; [apply Hle; left|done].
        -- apply Hle. by right.
Qed.

Lemma min_list_Ok xs m :
  min_list xs = Ok m → m ∈ xs ∧ ∀ y, y ∈ xs → (m <= y)%Q.
Proof.
  destruct xs as [|x xs]; [done|]. simpl. intros [= <-].
  apply min_list_fold.
Qed.

Section LowerBoundProperties.
Variable n_jobs : nat.
Variable n_machines : nat.
Variable processing_times : list Q.
Variable setup_matrix : list (list (option Q)).
Variable ready_times : list Q.

Abbreviation outgoing_step_b := (outgoing_step setup_matrix).
Abbreviation delta_step_b := (delta_step n_jobs setup_matrix).
Abbreviation calcular_ddlb_b :=
  (calcular_ddlb n_jobs n_machines processing_times setup_matrix ready_times).
Abbreviation least := (least_outgoing_setup n_jobs setup_matrix).

(** The generator yields the defined setups towards the other jobs. *)
Lemma outgoing_loop_Ok i js out :
  for_each (outgoing_step_b i) js [] = Ok out →
  ∀ x, x ∈ out ↔
       ∃ row j, setup_matrix !! i = Some row ∧ j ∈ js ∧ j ≠ i ∧
                row !! j = Some (Some x).
Proof.
  intros H.
  pose (P := λ (seen : list nat) (acc : list Q),
          ∀ x, x ∈ acc ↔
               ∃ row j, setup_matrix !! i = Some row ∧ j ∈ seen ∧ j ≠ i ∧
                        row !! j = Some (Some x)).
  apply (for_each_prefix_inv P (outgoing_step_b i) js) with (st := [])
    (seen := []); [| |done].
  - intros seen j acc acc' Hacc Hstep x. unfold outgoing_step in Hstep.
    case_decide as Hj.
    + injection Hstep as <-. rewrite (Hacc x). split.
      * intros (row & j' & ? & ? & ? & ?). exists row, j'.
        rewrite elem_of_app. auto.
      * intros (row & j' & ? & [?| ->%list_elem_of_singleton]%elem_of_app
                & ? & ?); [|done]. by exists row, j'.
    + apply bind_Ok in Hstep as (row & Hrow%getitem_Ok & Hstep).
      apply bind_Ok in Hstep as (c & Hc%getitem_Ok & Hstep).
      destruct c as [s|]; injection Hstep as <-.
      * rewrite elem_of_app, list_elem_of_singleton, (Hacc x). split.
        -- intros [(row' & j' & ? & ? & ? & ?)| ->].
           ++ exists row', j'. rewrite elem_of_app. auto.
           ++ exists row, j. rewrite elem_of_app, list_elem_of_singleton.
              auto.
        -- intros (row' & j' & Hrow' & [?| ->%list_elem_of_singleton]
                   %elem_of_app & ? & Hx).
           ++ left. by exists row', j'.
           ++ right. rewrite Hrow in Hrow'. injection Hrow' as <-.
              rewrite Hc in Hx. by injection Hx.
      * rewrite (Hacc x). split.
        -- intros (row' & j' & ? & ? & ? & ?). exists row', j'.
           rewrite elem_of_app. auto.
        -- intros (row' & j' & Hrow' & [?| ->%list_elem_of_singleton]
                   %elem_of_app & ? & Hx).
           ++ by exists row', j'.
           ++ rewrite Hrow in Hrow'. injection Hrow' as <-.
              rewrite Hc in Hx. done.
  - intros x. split; [by intros ?%elem_of_nil|].
    by intros (? & ? & _ & ?%elem_of_nil & _).
Qed.

Lemma delta_step_Ok deltas i deltas' :
  delta_step_b deltas i = Ok deltas' →
  ∃ δ, deltas' = deltas ++ [δ] ∧ least i δ.
Proof.
  unfold delta_step. intros H.
  apply bind_Ok in H as (out & Hout & H).
  apply bind_Ok in H as (δ & [Hin Hle]%min_list_Ok & H).
  injection H as <-. exists δ. split; [done|].
  pose proof (outgoing_loop_Ok i _ out Hout) as Hspec.
  assert (∀ x, x ∈ out ↔ outgoing_setup n_jobs setup_matrix i x) as Hspec'.
  { intros x. rewrite Hspec. unfold outgoing_setup.
    split; intros (row & j & ? & Hj & ? & ?); exists row, j;
      rewrite elem_of_seq in *; repeat split; try done; lia. }
  split; [by apply Hspec'|]. intros x Hx%Hspec'. by apply Hle.
Qed.

Lemma delta_loop_Ok deltas :
  for_each delta_step_b (seq 0 n_jobs) [] = Ok deltas →
  length deltas = n_jobs ∧
  ∀ i, i < n_jobs → ∃ δ, deltas !! i = Some δ ∧ least i δ.
Proof.
  intros H.
  pose (P := λ (seen : list nat) (deltas : list Q),
          length deltas = length seen ∧
          ∀ k i, seen !! k = Some i →
                 ∃ δ, deltas !! k = Some δ ∧ least i δ).
  assert (P ([] ++ seq 0 n_jobs) deltas) as [Hlen Hall].
  { apply (for_each_prefix_inv P delta_step_b (seq 0 n_jobs))
      with (st := []); [| |done].
    - intros seen i acc acc' [Hlen Hacc] (δ & -> & Hδ)%delta_step_Ok.
      split; [list_len; lia|]. intros k i' Hk.
      apply lookup_app_Some in Hk as [Hk|[Hge Hk]].
      + destruct (Hacc k i' Hk) as (δ' & Hδ' & Hleast).
        exists δ'. split; [|done]. by apply lookup_app_l_Some.
      + apply list_lookup_singleton_Some in Hk as [Hk <-].
        exists δ. split; [|done]. rewrite lookup_app_r by lia.
        by replace (k - length acc) with 0 by lia.
    - split; [done|]. by intros k i ?. }
  simpl in *. rewrite length_seq in Hlen. split; [done|].
  intros i Hi. apply (Hall i i). by apply lookup_seq.
Qed.

Lemma calcular_ddlb_returned bound :
  calcular_ddlb_b = Ok bound →
  n_machines ≠ 0 ∧
  ∀ i, i < n_jobs → ∃ x, outgoing_setup n_jobs setup_matrix i x.
Proof.
  unfold calcular_ddlb. intros H.
  apply bind_Ok in H as (deltas & [_ Hdeltas]%delta_loop_Ok & H).
  apply bind_Ok in H as (carga & Hcarga & _). split.
  - by case_decide.
  - intros i Hi. destruct (Hdeltas i Hi) as (δ & _ & Hδ & _). by exists δ.
Qed.

(** X15. [calcular_ddlb] returns only when the number of machines is not
    0 and every job has a defined setup to another job: a single job, a
    job whose outgoing setups are all undefined, or no machine make it
    raise. *)
Theorem calcular_ddlb_returns_only_if bound :
  calcular_ddlb n_jobs n_machines processing_times setup_matrix ready_times
    = Ok bound →
  n_machines ≠ 0 ∧
  ∀ i, i < n_jobs → ∃ x, outgoing_setup n_jobs setup_matrix i x.
Proof. apply calcular_ddlb_returned. Qed.

End LowerBoundProperties.

(** ** The scenario runner *)

Lemma join_fmap {A B} (f : A → B) (ls : list (list A)) :
  mjoin (fmap f <$> ls) = f <$> mjoin ls.
Proof.
  induction ls as [|l ls IH]; [done|].
  rewrite fmap_cons. simpl. by rewrite fmap_app, IH.
Qed.

Lemma machine_lines_jobs sched :
  mjoin ((machine_line <$> sched).*1) = scheduled_jobs sched.
Proof.
  unfold scheduled_jobs. rewrite <-join_fmap. f_equal.
  rewrite <-list_fmap_compose. done.
Qed.

Lemma genetic_algorithm_no_job n_machines processing_times ready_times
    setup_matrix pop_size generations crossover_rate mutation_rate
    tournament_k g :
  (1 ≤ pop_size)%Z →
  genetic_algorithm 0 n_machines processing_times ready_times setup_matrix
    pop_size generations crossover_rate mutation_rate tournament_k g
  = Raise ValueError.
Proof.
  intros Hpop. unfold genetic_algorithm.
  destruct (Z.to_nat pop_size) as [|n] eqn:E; [lia|].
  cbn [repeat_rand]. by apply bind_rand_Raise, bind_rand_Raise.
Qed.

Section ScenarioRunner.
Variable n_jobs : nat.
Variable n_machines : nat.
Variable processing_times : list Q.
Variable ready_times : list Q.
Variable setup_matrix : list (list (option Q)).

Abbreviation run_scenario_s :=
  (run_scenario n_jobs n_machines processing_times ready_times setup_matrix).

(** The steps of a scenario that returns. *)
Lemma run_scenario_Ok g report g' :
  run_scenario_s g = Ok (report, g') →
  ∃ res ms_inicial sched bound,
    genetic_algorithm n_jobs n_machines processing_times ready_times
      setup_matrix 50 200 (9 # 10) (2 # 100) 3 g = Ok (res, g') ∧
    history res !! 0 = Some ms_inicial ∧
    decode_schedule n_machines processing_times ready_times setup_matrix
      (chromosome (best res)) = Ok (best_makespan report, sched) ∧
    calcular_ddlb n_jobs n_machines processing_times setup_matrix ready_times
      = Ok bound ∧
    report = ScenarioReport (machine_line <$> sched) (cost (best res))
               (best_makespan report) bound (ratio (cost (best res)) bound)
               (ms_inicial - cost (best res))%Q
               (Z.of_nat (length (history res)) - 1)%Z.
Proof.
  unfold run_scenario. intros H.
  apply bind_rand_Ok in H as (res & g1 & Hga & H).
  apply bind_rand_Ok in H as (ms_inicial & g2 & [Hms%getitem_Ok ->]%lift_Ok & H).
  apply bind_rand_Ok in H as ([ms sched] & g3 & [Hdec ->]%lift_Ok & H).
  apply bind_rand_Ok in H as (bound & g4 & [Hbound ->]%lift_Ok & H).
  injection H as <- <-. by exists res, ms_inicial, sched, bound.
Qed.

(** X17. When a scenario returns, it reports 200 iterations, a final
    makespan that is the makespan of the re-decoded best chromosome, and
    one line per machine, whose job sequences together hold every job
    exactly once. *)
Theorem scenario_report_consistent g report g' :
  run_scenario n_jobs n_machines processing_times ready_times setup_matrix g
    = Ok (report, g') →
  q_iteracoes report = 200%Z ∧
  best_makespan report = ms_final report ∧
  length (machine_lines report) = n_machines ∧
  mjoin (machine_lines report).*1 ≡ₚ seq 0 n_jobs.
Proof.
  intros (res & ms_inicial & sched & bound & Hga & Hms & Hdec & Hbound & Hrep)
         %run_scenario_Ok.
  pose proof (genetic_algorithm_best_sound _ _ _ _ _ _ _ _ _ _ _ _ _ Hga)
    as [Horder Hcost].
  pose proof (genetic_algorithm_history_length _ _ _ _ _ _ _ _ _ _ _ _ _ Hga)
    as Hlen.
  pose proof (decode_schedule_jobs _ _ _ _ _ _ _ Hdec) as [Hrows Hjobs].
  assert (best_makespan report = cost (best res)) as Hms_final.
  { unfold evaluate in Hcost. rewrite Hdec in Hcost. simpl in Hcost.
    by injection Hcost. }
  rewrite Hrep. simpl. rewrite Hlen. split; [done|].
  split; [done|]. split; [by rewrite length_fmap|].
  by rewrite machine_lines_jobs, Hjobs.
Qed.

(** X18. A scenario returns, whatever the draws, only when there is a
    machine, there are at least two jobs and every job has a defined
    setup to another job. *)
Theorem run_scenario_returns_only_if g report g' :
  run_scenario n_jobs n_machines processing_times ready_times setup_matrix g
    = Ok (report, g') →
  1 ≤ n_machines ∧ 2 ≤ n_jobs ∧
  ∀ i, i < n_jobs → ∃ x, outgoing_setup n_jobs setup_matrix i x.
Proof.
  intros (res & _ & _ & bound & Hga & _ & _ & Hbound & _)%run_scenario_Ok.
  destruct (calcular_ddlb_returned _ _ _ _ _ _ Hbound) as [Hm Hout].
  split; [lia|]. split; [|done].
  destruct (decide (2 ≤ n_jobs)) as [|Hn]; [done|].
  assert (n_jobs = 0 ∨ n_jobs = 1) as [Hnone|Hone] by lia.
  - rewrite Hnone, genetic_algorithm_no_job in Hga; [done|lia].
  - destruct (Hout 0) as (x & row & j & _ & Hj & Hne & _); lia.
Qed.

End ScenarioRunner.

(** ** The decoder: the order of the jobs on a machine *)

(** X19. The decoder never reorders: the jobs of every machine's row
    appear in the row in the order they have in the list decoded. *)
Theorem machine_rows_follow_ordering n_machines processing_times ready_times
    setup_matrix order makespan sched m row :
  decode_schedule n_machines processing_times ready_times setup_matrix order
    = Ok (makespan, sched) →
  sched !! m = Some row →
  entry_job <$> row `sublist_of` order.
Proof.
  intros (st & Hloop & _ & ->)%decode_schedule_Ok Hrow.
  pose (P := λ (seen : list nat) (st : decoder_state),
          ∀ m row, schedule st !! m = Some row →
                   entry_job <$> row `sublist_of` seen).
  assert (P ([] ++ order) st) as HP; [|by apply (HP m row)].
  apply (for_each_prefix_inv P
           (place_job n_machines processing_times ready_times setup_matrix)
           order) with (st := init_state n_machines order); [| |done].
  - intros seen job st0 st1 Hseen Hplace m' row'.
    apply place_job_effect in Hplace
      as (bm & bs & bc & row0 & _ & _ & _ & Hrow0 & _ & _ & ->).
    destruct (decide (m' = bm)) as [->|Hne].
    + rewrite list_lookup_insert_eq by by eapply lookup_lt_Some.
      intros [= <-]. rewrite fmap_app. apply sublist_app; [|done].
      by apply (Hseen bm).
    + rewrite list_lookup_insert_ne by done. intros Hm'.
      apply sublist_inserts_r. by apply (Hseen m').
  - intros m' row' [-> _]%lookup_replicate. apply sublist_nil_l.
Qed.

(** ** The decoder in Python's arithmetic: no infinite time *)



(** ** Concrete runs *)

Lemma three_decoded :
  decode_schedule 2 three_processing three_ready three_setup [2; 0; 1]
  = Ok (11%Q, three_schedule).
Proof. vm_compute. reflexivity. Defined.

Lemma three_run :
  genetic_algorithm 3 2 three_processing three_ready three_setup
    3 2 (9 # 10) (2 # 100) 2 []
  = Ok (GaResult (Individual [1; 2; 0] 8%Q) [8%Q; 8%Q; 8%Q], []).
Proof. vm_compute. reflexivity. Defined.

Lemma uneven_run :
  genetic_algorithm 2 1 unit_processing unit_ready uneven_setup
    2 2 (9 # 10) (2 # 100) 1
    (improving_draws ++
       [0; 0; 2 ^ 53 - 1; 2 ^ 52; 2 ^ 52; 2 ^ 52; 2 ^ 52])%Z
  = Ok (GaResult (Individual [1; 0] 3%Q) [102%Q; 3%Q; 3%Q], []).
Proof. vm_compute. reflexivity. Defined.

(** The three jobs on two machines: two rows, the jobs 2, 1 and 0. *)
Lemma decode_schedule_places_every_job_witness :
  decode_schedule 2 three_processing three_ready three_setup [2; 0; 1]
    = Ok (11%Q, three_schedule) ∧
  length three_schedule = 2 ∧ scheduled_jobs three_schedule ≡ₚ [2; 0; 1].
Proof.
  split; [exact three_decoded|].
  exact (decode_schedule_places_every_job 2 three_processing three_ready
           three_setup [2; 0; 1] 11%Q three_schedule three_decoded).
Defined.

(** The makespan 11 is the end of job 1. *)
Lemma makespan_is_last_end_witness :
  NoDup [2; 0; 1] ∧
  (∀ t, t ∈ mjoin three_schedule → (entry_end t <= 11)%Q) ∧
  (∃ t, t ∈ mjoin three_schedule ∧ entry_end t = 11%Q).
Proof.
  assert (NoDup [2; 0; 1]) as Hnodup by compute_done.
  split; [exact Hnodup|].
  exact (makespan_is_last_end 2 three_processing three_ready three_setup
           [2; 0; 1] 11%Q three_schedule Hnodup three_decoded).
Defined.

(** A run of two generations on the three jobs. *)
Lemma best_is_decoded_ordering_witness :
  is_ordering 3 [1; 2; 0] ∧
  evaluate 2 three_processing three_ready three_setup [1; 2; 0] = Ok 8%Q.
Proof.
  exact (best_is_decoded_ordering 3 2 three_processing three_ready
           three_setup 3 2 (9 # 10) (2 # 100) 2 [] _ _ three_run).
Defined.

(** Two generations: three entries. *)
Lemma history_length_witness :
  length [8%Q; 8%Q; 8%Q] = S (Z.to_nat 2).
Proof.
  exact (history_length 3 2 three_processing three_ready three_setup
           3 2 (9 # 10) (2 # 100) 2 [] _ _ three_run).
Defined.

(** The run on the uneven instance: the best costs 3, the entry of the
    first generation is 3. *)
Lemma best_no_worse_than_history_witness :
  [102%Q; 3%Q; 3%Q] !! 1 = Some 3%Q ∧
  (1 = 0 ∨ 2 < length [102%Q; 3%Q; 3%Q]) ∧
  (3 <= 3)%Q.
Proof.
  assert ([102%Q; 3%Q; 3%Q] !! 1 = Some 3%Q) as Hentry by reflexivity.
  assert (1 = 0 ∨ 2 < length [102%Q; 3%Q; 3%Q]) as Hpos
    by (right; simpl; lia).
  split; [exact Hentry|]. split; [exact Hpos|].
  exact (best_no_worse_than_history 2 1 unit_processing unit_ready
           uneven_setup 2 2 (9 # 10) (2 # 100) 1 _ _ _ 1 3%Q
           uneven_run Hentry Hpos).
Defined.

(** A tournament of the whole population of two returns the cheaper
    individual; a tournament of three is refused. *)
Lemma tournament_selection_winner_witness :
  tournament_selection
    [Individual [0; 1] 102%Q; Individual [1; 0] 3%Q] 3 [] = Raise ValueError ∧
  ∃ winner g',
    tournament_selection
      [Individual [0; 1] 102%Q; Individual [1; 0] 3%Q] 2 [] = Ok (winner, g') ∧
    winner ∈ [Individual [0; 1] 102%Q; Individual [1; 0] 3%Q] ∧
    (2%Z = Z.of_nat (length [Individual [0; 1] 102%Q; Individual [1; 0] 3%Q]) →
     ∀ ind, ind ∈ [Individual [0; 1] 102%Q; Individual [1; 0] 3%Q] →
            (cost winner <= cost ind)%Q).
Proof.
  split.
  - apply (proj1 (tournament_selection_winner
                    [Individual [0; 1] 102%Q; Individual [1; 0] 3%Q] 3 [])).
    right. simpl. lia.
  - apply (proj2 (tournament_selection_winner
                    [Individual [0; 1] 102%Q; Individual [1; 0] 3%Q] 2 [])).
    simpl. lia.
Defined.

(** Three genes and a rate of 0: three draws are used, none exchanges. *)
Lemma mutate_swap_rate_zero_witness :
  (0 <= 0)%Q ∧
  mutate_swap [0; 1; 2] 0 [5; 6; 7; 8]%Z = Ok ([0; 1; 2], [8%Z]).
Proof.
  assert (0 <= 0)%Q as Hrate by (by vm_compute).
  split; [exact Hrate|].
  exact (mutate_swap_rate_zero [0; 1; 2] 0 [5; 6; 7; 8]%Z Hrate).
Defined.

(** Parents of four genes, the cut points 1 and 3. *)
Lemma order_crossover_keeps_slice_witness :
  is_ordering 4 [0; 1; 2; 3] ∧ is_ordering 4 [3; 2; 1; 0] ∧
  order_crossover [0; 1; 2; 3] [3; 2; 1; 0] [1; 2]%Z
    = Ok ([Some 3; Some 1; Some 2; Some 0], []) ∧
  ∃ a b, a < b ∧ b < 4 ∧
         ∀ i, a <= i < b →
              ∃ x, [0; 1; 2; 3] !! i = Some x ∧
                   [Some 3; Some 1; Some 2; Some 0] !! i = Some (Some x).
Proof.
  assert (is_ordering 4 [0; 1; 2; 3]) as H1
    by (unfold is_ordering; compute_done).
  assert (is_ordering 4 [3; 2; 1; 0]) as H2
    by (unfold is_ordering; compute_done).
  assert (order_crossover [0; 1; 2; 3] [3; 2; 1; 0] [1; 2]%Z
          = Ok ([Some 3; Some 1; Some 2; Some 0], [])) as Hchild.
  { vm_compute. reflexivity. }
  split; [exact H1|]. split; [exact H2|]. split; [exact Hchild|].
  exact (order_crossover_keeps_slice 4 [0; 1; 2; 3] [3; 2; 1; 0] [1; 2]%Z
           _ _ H1 H2 Hchild).
Defined.

(** Machine 0 runs job 2 and then job 1, as in [[2; 0; 1]]. *)
Lemma machine_rows_follow_ordering_witness :
  three_schedule !! 0 = Some [(2, 0%Q, 2%Q); (1, 4%Q, 11%Q)] ∧
  entry_job <$> [(2, 0%Q, 2%Q); (1, 4%Q, 11%Q)] `sublist_of` [2; 0; 1].
Proof.
  assert (three_schedule !! 0 = Some [(2, 0%Q, 2%Q); (1, 4%Q, 11%Q)])
    as Hrow by reflexivity.
  split; [exact Hrow|].
  exact (machine_rows_follow_ordering 2 three_processing three_ready
           three_setup [2; 0; 1] 11%Q three_schedule 0 _ three_decoded Hrow).
Defined.

(** A list that repeats job 1 three times is decoded on the three jobs. *)
Lemma decode_schedule_returns_only_if_witness :
  length three_ready = 3 ∧
  decode_schedule 2 three_processing three_ready three_setup [1; 1; 1]
    = Ok (15%Q, [[(1, 1%Q, 8%Q); (1, 8%Q, 15%Q)]; [(1, 1%Q, 8%Q)]]) ∧
  1 ≤ 2 ∧ [1; 1; 1] ≠ [] ∧ Forall (in_range 3 [1; 1; 1]) [1; 1; 1].
Proof.
  assert (length three_ready = 3) as Hready by reflexivity.
  assert (decode_schedule 2 three_processing three_ready three_setup
            [1; 1; 1]
          = Ok (15%Q, [[(1, 1%Q, 8%Q); (1, 8%Q, 15%Q)]; [(1, 1%Q, 8%Q)]]))
    as Hrun.
  { vm_compute. reflexivity. }
  split; [exact Hready|]. split; [exact Hrun|].
  exact (decode_schedule_returns_only_if 3 2 three_processing three_ready
           three_setup [1; 1; 1] _ _ Hready Hrun).
Defined.


(** An individual of the three jobs. *)
Lemma create_individual_sound_witness :
  create_individual 3 2 three_processing three_ready three_setup [2; 1]%Z
    = Ok (Individual [0; 1; 2] 8%Q, []) ∧
  sound_individual 3 2 three_processing three_ready three_setup
    (Individual [0; 1; 2] 8%Q).
Proof.
  assert (create_individual 3 2 three_processing three_ready three_setup
            [2; 1]%Z = Ok (Individual [0; 1; 2] 8%Q, [])) as Hcreate.
  { vm_compute. reflexivity. }
  split; [exact Hcreate|].
  exact (proj2 (create_individual_sound 3 2 three_processing three_ready
                  three_setup [2; 1]%Z) _ _ Hcreate).
Defined.

(** The bound of the three jobs is returned: each of them has a setup to
    another one. *)
Lemma calcular_ddlb_returns_only_if_witness :
  calcular_ddlb 3 2 three_processing three_setup three_ready = Ok 9%Q ∧
  2 ≠ 0 ∧ ∀ i, i < 3 → ∃ x, outgoing_setup 3 three_setup i x.
Proof.
  assert (calcular_ddlb 3 2 three_processing three_setup three_ready
          = Ok 9%Q) as Hbound.
  { vm_compute. reflexivity. }
  split; [exact Hbound|].
  exact (calcular_ddlb_returns_only_if 3 2 three_processing three_setup
           three_ready 9%Q Hbound).
Defined.

Lemma three_scenario :
  run_scenario 3 2 three_processing three_ready three_setup []
  = Ok (ScenarioReport [([1], 8%Q); ([2; 0], 8%Q)] 8%Q 8%Q 9%Q
          (Some (8 # 9)) 0%Q 200, []).
Proof. vm_compute. reflexivity. Defined.

(** The scenario of the three jobs, on a random source that answers 0. *)
Lemma scenario_report_consistent_witness :
  run_scenario 3 2 three_processing three_ready three_setup []
    = Ok (ScenarioReport [([1], 8%Q); ([2; 0], 8%Q)] 8%Q 8%Q 9%Q
            (Some (8 # 9)) 0%Q 200, []) ∧
  length [([1], 8%Q); ([2; 0], 8%Q)] = 2 ∧
  mjoin ([([1], 8%Q); ([2; 0], 8%Q)].*1) ≡ₚ seq 0 3.
Proof.
  split; [exact three_scenario|].
  destruct (scenario_report_consistent 3 2 three_processing three_ready
              three_setup [] _ _ three_scenario) as (_ & _ & Hrows & Hjobs).
  split; [exact Hrows|exact Hjobs].
Defined.

(** The scenario of the three jobs returns: two machines, three jobs,
    every job with a setup to another one. *)
Lemma run_scenario_returns_only_if_witness :
  1 ≤ 2 ∧ 2 ≤ 3 ∧ ∀ i, i < 3 → ∃ x, outgoing_setup 3 three_setup i x.
Proof.
  exact (run_scenario_returns_only_if 3 2 three_processing three_ready
           three_setup [] _ _ three_scenario).
Defined.

(** The jobs of lengths 2^53 and 1 on one machine: the schedule the
    program returns is valid in its own arithmetic. *)
Lemma schedule_validity_witness :
  Py.well_formed 2 1 [Py.Int (2 ^ 53); Py.Int 1] Py.no_wait_ready
    Py.no_wait_setup ∧
  is_ordering 2 [0; 1] ∧
  Py.decode_schedule 1 [Py.Int (2 ^ 53); Py.Int 1] Py.no_wait_ready
    Py.no_wait_setup [0; 1]
  = Ok (Py.two_53, [[(0, Py.zero, Py.two_53); (1, Py.two_53, Py.two_53)]]) ∧
  Py.valid_schedule [Py.Int (2 ^ 53); Py.Int 1] Py.no_wait_ready
    Py.no_wait_setup
    [[(0, Py.zero, Py.two_53); (1, Py.two_53, Py.two_53)]].
Proof.
  assert (Py.well_formed 2 1 [Py.Int (2 ^ 53); Py.Int 1] Py.no_wait_ready
            Py.no_wait_setup) as Hwf.
  { split; try done; repeat constructor. }
  assert (is_ordering 2 [0; 1]) as Horder by (unfold is_ordering; done).
  assert (Py.decode_schedule 1 [Py.Int (2 ^ 53); Py.Int 1] Py.no_wait_ready
            Py.no_wait_setup [0; 1]
          = Ok (Py.two_53,
                [[(0, Py.zero, Py.two_53); (1, Py.two_53, Py.two_53)]]))
    as Hrun.
  { vm_compute. reflexivity. }
  split; [exact Hwf|]. split; [exact Horder|]. split; [exact Hrun|].
  exact (schedule_validity 2 1 [Py.Int (2 ^ 53); Py.Int 1] Py.no_wait_ready
           Py.no_wait_setup [0; 1] _ _ Hwf Horder Hrun).
Defined.

(** The jobs of lengths 1 and 2^53 on two machines: the second job stays
    on machine 0, whose candidate ties with that of machine 1. *)
Lemma decoder_machine_selection_witness :
  Py.decode_schedule 2 [Py.Int 1; Py.Int (2 ^ 53)] Py.no_wait_ready
    Py.no_wait_setup ([0] ++ 1 :: [])
  = Ok (Py.two_53, [[(0, Py.zero, Py.one); (1, Py.one, Py.two_53)]; []]) ∧
  ∃ st best_machine best_start best_completion,
    Py.decode_loop 2 [Py.Int 1; Py.Int (2 ^ 53)] Py.no_wait_ready
      Py.no_wait_setup [0] (Py.init_state 2 [0; 1]) = Ok st ∧
    Py.finish_time [Py.Int 1; Py.Int (2 ^ 53)] Py.no_wait_ready
      Py.no_wait_setup st 1 best_machine best_start best_completion ∧
    ∀ m, m < 2 →
      ∃ start completion,
        Py.finish_time [Py.Int 1; Py.Int (2 ^ 53)] Py.no_wait_ready
          Py.no_wait_setup st 1 m start completion ∧
        Py.lt completion best_completion = false ∧
        (m < best_machine → Py.le completion best_completion = false) ∧
        (is_Some (Py.value completion) →
         Py.le best_completion completion = true ∧
         (m < best_machine → Py.lt best_completion completion = true)).
Proof.
  assert (Py.decode_schedule 2 [Py.Int 1; Py.Int (2 ^ 53)] Py.no_wait_ready
            Py.no_wait_setup ([0] ++ 1 :: [])
          = Ok (Py.two_53,
                [[(0, Py.zero, Py.one); (1, Py.one, Py.two_53)]; []]))
    as Hrun.
  { vm_compute. reflexivity. }
  split; [exact Hrun|].
  destruct (decoder_machine_selection 2 [Py.Int 1; Py.Int (2 ^ 53)]
              Py.no_wait_ready Py.no_wait_setup [0] 1 [] _ _ Hrun)
    as (st & st' & st_final & bm & bs & bc & row & Hbefore & _ & _ & _ & _ &
        Hfin & _ & Hall & _).
  exists st, bm, bs, bc. split; [exact Hbefore|]. split; [exact Hfin|].
  exact Hall.
Defined.

(** A population of two on the uneven instance: a tournament size of 5
    is accepted without generation and met by [random.sample] in the
    first generation, a tournament size of 0 is met by [min], and a
    tournament of the two individuals is run. *)
Lemma configuration_not_validated_witness :
  repeat_rand (create_individual 2 1 unit_processing unit_ready uneven_setup)
    (Z.to_nat 2) [1; 1]%Z
  = Ok ([Individual [0; 1] 102%Q; Individual [0; 1] 102%Q], []) ∧
  genetic_algorithm 2 1 unit_processing unit_ready uneven_setup
    2 0 (9 # 10) (2 # 100) 5 [1; 1]%Z
  = Ok (GaResult (Individual [0; 1] 102%Q) [102%Q], []) ∧
  genetic_algorithm 2 1 unit_processing unit_ready uneven_setup
    2 1 (9 # 10) (2 # 100) 5 [1; 1]%Z = Raise ValueError ∧
  genetic_algorithm 2 1 unit_processing unit_ready uneven_setup
    2 1 (9 # 10) (2 # 100) 0 [1; 1]%Z = Raise ValueError ∧
  genetic_algorithm 2 1 unit_processing unit_ready uneven_setup
    2 1 (9 # 10) (2 # 100) 2 [1; 1]%Z
  = Ok (GaResult (Individual [0; 1] 102%Q) [102%Q; 3%Q], []).
Proof.
  assert (repeat_rand
            (create_individual 2 1 unit_processing unit_ready uneven_setup)
            (Z.to_nat 2) [1; 1]%Z
          = Ok ([Individual [0; 1] 102%Q; Individual [0; 1] 102%Q], []))
    as Hinit.
  { vm_compute. reflexivity. }
  split; [exact Hinit|].
  split; [|split; [|split]].
  - destruct (configuration_not_validated 2 1 unit_processing unit_ready
                uneven_setup 2 0 (9 # 10) (2 # 100) 5 [1; 1]%Z)
      as (_ & _ & Hthen).
    destruct (Hthen _ _ ltac:(lia) Hinit) as (best0 & Hbest & _ & Hnone & _).
    injection Hbest as <-. apply Hnone. lia.
  - destruct (configuration_not_validated 2 1 unit_processing unit_ready
                uneven_setup 2 1 (9 # 10) (2 # 100) 5 [1; 1]%Z)
      as (_ & _ & Hthen).
    destruct (Hthen _ _ ltac:(lia) Hinit) as (best0 & _ & _ & _ & Hgen).
    destruct (Hgen ltac:(lia) ltac:(lia)) as (Hbad & _ & _).
    apply Hbad. lia.
  - destruct (configuration_not_validated 2 1 unit_processing unit_ready
                uneven_setup 2 1 (9 # 10) (2 # 100) 0 [1; 1]%Z)
      as (_ & _ & Hthen).
    destruct (Hthen _ _ ltac:(lia) Hinit) as (best0 & _ & _ & _ & Hgen).
    destruct (Hgen ltac:(lia) ltac:(lia)) as (_ & Hzero & _).
    by apply Hzero.
  - vm_compute. reflexivity.
Defined.

